(** * buford: push-package checksum stream and APS payload map

    A shallow embedding of

    - [pushpackage/checksum.go]: [copyAndChecksum], together with the parts of
      Go's standard library it is built from ([crypto/sha512], [encoding/hex],
      [io.MultiWriter], [io.Copy]);
    - package [payload]: [Alert.isSimple], [Alert.isZero], [APS.Map];
    - the push-package builder (manifest, signer, archive assembler), which is
      described by the specification only.

    Bytes are [Byte.byte], machine integers are [Z] with their wrap-around
    written out, Go maps are [gmap]s, Go's [error] values are an inductive
    type with [None] for [nil]. *)

From Stdlib Require Import ZArith List Lia Strings.Ascii Strings.String Strings.Byte Floats.SpecFloat.
From stdpp Require Import base option list gmap strings sorting.
Import ListNotations.

Local Open Scope Z_scope.

(** ** Go's [error] values *)

(** The sentinel errors of package [io] that [io.Copy] and [io.MultiWriter]
    produce or inspect, and an arbitrary other error carrying its message. *)
Inductive error : Type :=
  | EOF
  | ErrShortWrite
  | errInvalidWrite
  | ErrOther (msg : string).

#[global] Instance error_eq_dec : EqDecision error.
Proof. solve_decision. Defined.

#[global] Instance byte_eq_dec : EqDecision byte := Byte.byte_eq_dec.

(** ** [io.Writer] *)

(** [Write w p] returns the writer after the call, the count [n] and the
    error, as [func (w) Write(p []byte) (n int, err error)]. *)
Class Writer (W : Type) := Write : W → list byte → W * (Z * option error).

(** [writeAll w bufs] is the writer after it has taken every buffer of
    [bufs] in full, skipping the empty ones for which [io.Copy] makes no
    call, and [None] when one of the writes fails or is short. *)
Fixpoint writeAll {W} `{Writer W} (w : W) (bufs : list (list byte)) : option W :=
  match bufs with
  | [] => Some w
  | buf :: bufs' =>
      if (length buf =? 0)%nat then writeAll w bufs'
      else
        let '(w', (n, err)) := Write w buf in
        match err with
        | None => if n =? Z.of_nat (length buf) then writeAll w' bufs' else None
        | Some _ => None
        end
  end.

(** ** crypto/sha512 *)

Module sha512.

Definition Size : nat := 64.
Definition chunk : nat := 128.

(** Arithmetic on [uint64]. *)
Definition u64 (z : Z) : Z := z mod 2 ^ 64.
Definition not64 (x : Z) : Z := u64 (Z.lnot x).

(** [bits.RotateLeft64]: [s := uint(k) & 63; x<<s | x>>(64-s)]. *)
Definition RotateLeft64 (x k : Z) : Z :=
  let s := Z.land (k mod 2 ^ 64) 63 in
  u64 (Z.lor (Z.shiftl x s) (Z.shiftr x (64 - s))).

Definition byteZ (b : byte) : Z := Z.of_N (Byte.to_N b).
Definition Zbyte (z : Z) : byte :=
  default x00 (Byte.of_N (Z.to_N (z mod 256))).

Definition _K : list Z :=
  [ 0x428a2f98d728ae22; 0x7137449123ef65cd; 0xb5c0fbcfec4d3b2f; 0xe9b5dba58189dbbc;
    0x3956c25bf348b538; 0x59f111f1b605d019; 0x923f82a4af194f9b; 0xab1c5ed5da6d8118;
    0xd807aa98a3030242; 0x12835b0145706fbe; 0x243185be4ee4b28c; 0x550c7dc3d5ffb4e2;
    0x72be5d74f27b896f; 0x80deb1fe3b1696b1; 0x9bdc06a725c71235; 0xc19bf174cf692694;
    0xe49b69c19ef14ad2; 0xefbe4786384f25e3; 0x0fc19dc68b8cd5b5; 0x240ca1cc77ac9c65;
    0x2de92c6f592b0275; 0x4a7484aa6ea6e483; 0x5cb0a9dcbd41fbd4; 0x76f988da831153b5;
    0x983e5152ee66dfab; 0xa831c66d2db43210; 0xb00327c898fb213f; 0xbf597fc7beef0ee4;
    0xc6e00bf33da88fc2; 0xd5a79147930aa725; 0x06ca6351e003826f; 0x142929670a0e6e70;
    0x27b70a8546d22ffc; 0x2e1b21385c26c926; 0x4d2c6dfc5ac42aed; 0x53380d139d95b3df;
    0x650a73548baf63de; 0x766a0abb3c77b2a8; 0x81c2c92e47edaee6; 0x92722c851482353b;
    0xa2bfe8a14cf10364; 0xa81a664bbc423001; 0xc24b8b70d0f89791; 0xc76c51a30654be30;
    0xd192e819d6ef5218; 0xd69906245565a910; 0xf40e35855771202a; 0x106aa07032bbd1b8;
    0x19a4c116b8d2d0c8; 0x1e376c085141ab53; 0x2748774cdf8eeb99; 0x34b0bcb5e19b48a8;
    0x391c0cb3c5c95a63; 0x4ed8aa4ae3418acb; 0x5b9cca4f7763e373; 0x682e6ff3d6b2b8a3;
    0x748f82ee5defb2fc; 0x78a5636f43172f60; 0x84c87814a1f0ab72; 0x8cc702081a6439ec;
    0x90befffa23631e28; 0xa4506cebde82bde9; 0xbef9a3f7b2c67915; 0xc67178f2e372532b;
    0xca273eceea26619c; 0xd186b8c721c0c207; 0xeada7dd6cde0eb1e; 0xf57d4f7fee6ed178;
    0x06f067aa72176fba; 0x0a637dc5a2c898a6; 0x113f9804bef90dae; 0x1b710b35131c471b;
    0x28db77f523047d84; 0x32caab7b40c72493; 0x3c9ebe0a15c9bebc; 0x431d67c49c100d4c;
    0x4cc5d4becb3e42b6; 0x597f299cfc657e2a; 0x5fcb6fab3ad6faec; 0x6c44198c4a475817 ].

(** [init0 .. init7], the initial value of [digest.h] for SHA-512. *)
Definition init : list Z :=
  [ 0x6a09e667f3bcc908; 0xbb67ae8584caa73b; 0x3c6ef372fe94f82b; 0xa54ff53a5f1d36f1;
    0x510e527fade682d1; 0x9b05688c2b3e6c1f; 0x1f83d9abfb41bd6b; 0x5be0cd19137e2179 ].

(** [binary.BigEndian.Uint64]: the first eight bytes of [p] as a word. *)
Definition beUint64 (p : list byte) : Z :=
  fold_left (λ acc b, Z.lor (Z.shiftl acc 8) (byteZ b)) (firstn 8 p) 0.

(** [binary.BigEndian.PutUint64]: the eight bytes of a word. *)
Definition bePutUint64 (v : Z) : list byte :=
  map (λ i, Zbyte (Z.shiftr v (8 * i))) [7; 6; 5; 4; 3; 2; 1; 0].

(** The first loop of [blockGeneric]: [w[i]] for [i < 16] are the words of
    the chunk. *)
Fixpoint loadWords (n : nat) (p : list byte) : list Z :=
  match n with
  | O => []
  | S n' => beUint64 p :: loadWords n' (skipn 8 p)
  end.

(** The second loop: [w[i] = t1 + w[i-7] + t2 + w[i-16]] for [16 <= i < 80];
    [w] holds [w[0..i-1]] when the iteration for [i] starts. *)
Fixpoint extendWords (n : nat) (w : list Z) : list Z :=
  match n with
  | O => w
  | S n' =>
      let i := length w in
      let v1 := nth (i - 2) w 0 in
      let t1 := Z.lxor (Z.lxor (RotateLeft64 v1 (-19)) (RotateLeft64 v1 (-61)))
                       (Z.shiftr v1 6) in
      let v2 := nth (i - 15) w 0 in
      let t2 := Z.lxor (Z.lxor (RotateLeft64 v2 (-1)) (RotateLeft64 v2 (-8)))
                       (Z.shiftr v2 7) in
      extendWords n' (w ++ [u64 (t1 + nth (i - 7) w 0 + t2 + nth (i - 16) w 0)])
  end.

(** The working variables [a, b, c, d, e, f, g, h]. *)
Definition vars : Type := Z * Z * Z * Z * Z * Z * Z * Z.

(** One iteration of the third loop, for the constant [k = _K[i]] and the
    word [wi = w[i]]. *)
Definition round (v : vars) (kw : Z * Z) : vars :=
  let '(a, b, c, d, e, f, g, h) := v in
  let '(k, wi) := kw in
  let t1 := u64 (h + Z.lxor (Z.lxor (RotateLeft64 e (-14)) (RotateLeft64 e (-18)))
                            (RotateLeft64 e (-41))
                   + Z.lxor (Z.land e f) (Z.land (not64 e) g) + k + wi) in
  let t2 := u64 (Z.lxor (Z.lxor (RotateLeft64 a (-28)) (RotateLeft64 a (-34)))
                        (RotateLeft64 a (-39))
                 + Z.lxor (Z.lxor (Z.land a b) (Z.land a c)) (Z.land b c)) in
  (u64 (t1 + t2), a, b, c, u64 (d + t1), e, f, g).

(** The body of the outer loop of [blockGeneric] for one chunk [p]. *)
Definition blockOne (hs : list Z) (p : list byte) : list Z :=
  let w := extendWords 64 (loadWords 16 p) in
  let h i := nth i hs 0 in
  let '(a, b, c, d, e, f, g, h') :=
    fold_left round (combine _K w)
              (h 0%nat, h 1%nat, h 2%nat, h 3%nat, h 4%nat, h 5%nat, h 6%nat, h 7%nat) in
  [ u64 (h 0%nat + a); u64 (h 1%nat + b); u64 (h 2%nat + c); u64 (h 3%nat + d);
    u64 (h 4%nat + e); u64 (h 5%nat + f); u64 (h 6%nat + g); u64 (h 7%nat + h') ].

(** [for len(p) >= chunk { ...; p = p[chunk:] }] runs [len(p) / chunk]
    times; [blockLoop] is that many iterations. *)
Fixpoint blockLoop (n : nat) (hs : list Z) (p : list byte) : list Z :=
  match n with
  | O => hs
  | S n' => blockLoop n' (blockOne hs (firstn chunk p)) (skipn chunk p)
  end.

Definition block (hs : list Z) (p : list byte) : list Z :=
  blockLoop (length p / chunk) hs p.

(** [type digest struct { h [8]uint64; x [chunk]byte; nx int; len uint64 }].
    [x] is the filled part [d.x[:d.nx]] of the buffer, so [nx] is its
    length. *)
Record digest : Type := mkDigest {
  h : list Z;
  x : list byte;
  len : Z
}.

Definition nx (d : digest) : nat := length (x d).

(** [sha512.New()]: a digest after [Reset]. *)
Definition New : digest := mkDigest init [] 0.

(** [func (d *digest) Write(p []byte) (nn int, err error)], in the three
    steps of its body after [d.len += uint64(nn)].  Each step returns the
    digest and what is left of [p]. *)

(** [if d.nx > 0 { n := copy(d.x[d.nx:], p); d.nx += n;
    if d.nx == chunk { block(d, d.x[:]); d.nx = 0 }; p = p[n:] }]. *)
Definition fillBuffer (d : digest) (p : list byte) : digest * list byte :=
  if (0 <? nx d)%nat then
    let n := Nat.min (chunk - nx d) (length p) in
    let x' := x d ++ firstn n p in
    ((if (length x' =? chunk)%nat
      then mkDigest (block (h d) x') [] (len d)
      else mkDigest (h d) x' (len d)),
     skipn n p)
  else (d, p).

(** [if len(p) >= chunk { n := len(p) &^ (chunk - 1); block(d, p[:n]);
    p = p[n:] }]. *)
Definition hashChunks (d : digest) (p : list byte) : digest * list byte :=
  if (chunk <=? length p)%nat then
    let n := (length p / chunk * chunk)%nat in
    (mkDigest (block (h d) (firstn n p)) (x d) (len d), skipn n p)
  else (d, p).

(** [if len(p) > 0 { d.nx = copy(d.x[:], p) }]. *)
Definition keepRest (d : digest) (p : list byte) : digest :=
  if (0 <? length p)%nat then mkDigest (h d) p (len d) else d.

Definition write (d : digest) (p : list byte) : digest :=
  let d := mkDigest (h d) (x d) (u64 (len d + Z.of_nat (length p))) in
  let '(d, p) := fillBuffer d p in
  let '(d, p) := hashChunks d p in
  keepRest d p.

#[global] Instance digest_Writer : Writer digest :=
  λ d p, (write d p, (Z.of_nat (length p), None)).

(** The padding [checkSum] writes: [0x80], zeros up to 112 bytes mod 128,
    eight zero bytes (the upper half of the length is not written) and the
    length in bits, [len<<3], as a big-endian [uint64]. *)
Definition padlen (len : Z) : list byte :=
  let t := if len mod 128 <? 112 then 112 - len mod 128
           else 128 + 112 - len mod 128 in
  x80 :: repeat x00 (Z.to_nat (t + 8) - 1) ++ bePutUint64 (u64 (Z.shiftl len 3)).

(** [func (d *digest) checkSum() [Size]byte]. *)
Definition checkSum (d : digest) : list byte :=
  let d := write d (padlen (len d)) in
  concat (map bePutUint64 (h d)).

(** [func (d *digest) Sum(in []byte) []byte]: works on a copy of [d]. *)
Definition Sum (d : digest) (b : list byte) : list byte := b ++ checkSum d.

(** [absorbed d m]: [d] is a digest that has been written the bytes [m];
    the complete chunks of [m] are hashed into [h], the rest is buffered in
    [x], and [len] counts the bytes. *)
Definition absorbed (d : digest) (m : list byte) : Prop :=
  ∃ m1 k, m = m1 ++ x d ∧ length m1 = (k * chunk)%nat ∧
          (length (x d) < chunk)%nat ∧ h d = block init m1 ∧
          len d = u64 (Z.of_nat (length m)).

(** The reference function, FIPS 180-4 section 6.4 as [sha512.Sum512]
    computes it: the message is padded (5.1.2) and parsed into 1024-bit
    blocks (5.2.2), and the hash computation runs over all of them from the
    initial hash value. *)
Definition pad (m : list byte) : list byte :=
  let l := Z.of_nat (length m) in
  let k := (112 - (l + 1)) mod 128 in
  m ++ x80 :: repeat x00 (Z.to_nat k)
    ++ bePutUint64 0 ++ bePutUint64 (u64 (8 * l)).

Definition Sum512 (m : list byte) : list byte :=
  concat (map bePutUint64 (block init (pad m))).

(** The same with the length of the message in bits written in all 128
    bits of the length field, as FIPS 180-4 has it; [Sum512] leaves the
    upper 64 bits zero and wraps the lower 64, as [checkSum] does. *)
Definition fipsPad (m : list byte) : list byte :=
  let l := Z.of_nat (length m) in
  let k := (112 - (l + 1)) mod 128 in
  m ++ x80 :: repeat x00 (Z.to_nat k)
    ++ bePutUint64 (Z.shiftr (8 * l) 64) ++ bePutUint64 (8 * l).

Definition fips (m : list byte) : list byte :=
  concat (map bePutUint64 (block init (fipsPad m))).

End sha512.

(** ** encoding/hex *)

Module hex.

Definition hextable : string := "0123456789abcdef".

Definition digit (n : Z) : ascii :=
  default "0"%char (String.get (Z.to_nat n) hextable).

(** [hex.EncodeToString]: [hextable[v>>4]], [hextable[v&0x0f]] per byte. *)
Fixpoint EncodeToString (src : list byte) : string :=
  match src with
  | [] => ""
  | v :: src' =>
      String (digit (Z.shiftr (sha512.byteZ v) 4))
        (String (digit (Z.land (sha512.byteZ v) 0x0f)) (EncodeToString src'))
  end.

(** The byte that two digits of [hextable] stand for. *)
Definition nibble (c : ascii) : Z :=
  let n := Z.of_nat (nat_of_ascii c) in
  if n <? 97 then n - 48 else n - 87.

Definition fromDigits (hi lo : ascii) : byte :=
  sha512.Zbyte (Z.lor (Z.shiftl (nibble hi) 4) (nibble lo)).

(** A digit of lowercase hexadecimal: [0-9] or [a-f]. *)
Definition isLowerHexDigit (c : ascii) : bool :=
  let n := nat_of_ascii c in
  ((48 <=? n)%nat && (n <=? 57)%nat) || ((97 <=? n)%nat && (n <=? 102)%nat).

Fixpoint isLowerHex (s : string) : bool :=
  match s with
  | "" => true
  | String c s' => isLowerHexDigit c && isLowerHex s'
  end%string.

End hex.

(** ** io *)

(** An [io.Reader] is the sequence of results its [Read] calls will give:
    each call returns some bytes (at most the buffer's length; the model does
    not bound them) together with [nil], [io.EOF] or another error.  A reader
    whose script is used up returns [0, io.EOF].  A source that has its own
    [WriteTo], which [io.Copy] then calls, is the sequence of the writes it
    makes and the error it ends with. *)
Definition Reader : Type := list (list byte * option error).

Definition Read (r : Reader) : Reader * (list byte * option error) :=
  match r with
  | [] => ([], ([], Some EOF))
  | res :: r' => (r', res)
  end.

(** The bytes the calls to [Read] returned between the reader states
    [before] and [after]. *)
Definition bytesRead (before after : Reader) : list byte :=
  concat (map fst (take (length before - length after) before)).

(** A destination: the bytes it has received, the payloads of the [Write]
    calls made so far, and how it answers a call given those.  Its answer
    [(n, err)] is unconstrained, so short writes, failing writes and counts
    that break the contract of [io.Writer] are all covered; it receives the
    first [n] bytes of the payload. *)
Record Dest : Type := mkDest {
  received : list byte;
  calls : list (list byte);
  respond : list (list byte) → list byte → Z * option error
}.

#[global] Instance Dest_Writer : Writer Dest :=
  λ w p,
    let '(n, err) := respond w (calls w) p in
    (mkDest (received w ++ take (Z.to_nat n) p) (calls w ++ [p]) (respond w),
     (n, err)).

(** [bytes.Buffer] as a destination: every write is accepted in full. *)
Definition Buffer : Dest :=
  mkDest [] [] (λ _ p, (Z.of_nat (length p), None)).

(** A destination that takes every write in full, whatever came before. *)
Definition accepting (w : Dest) : Prop :=
  ∀ hist p, respond w hist p = (Z.of_nat (length p), None).

(** A destination with room for [cap] bytes that fails with [e] once full. *)
Definition Limited (cap : nat) (e : error) : Dest :=
  mkDest [] []
    (λ hist p,
       let used := Nat.min cap (length (concat hist)) in
       if (used + length p <=? cap)%nat then (Z.of_nat (length p), None)
       else (Z.of_nat (cap - used), Some e)).

Module io.

(** [type multiWriter struct { writers []Writer }] for the two writers
    [copyAndChecksum] passes to [io.MultiWriter]. *)
Record multiWriter (A B : Type) : Type := MultiWriter {
  writer0 : A;
  writer1 : B
}.
#[global] Arguments MultiWriter {A B} _ _.
#[global] Arguments writer0 {A B} _.
#[global] Arguments writer1 {A B} _.

(** [func (t *multiWriter) Write(p []byte) (n int, err error)]: the loop
    over [t.writers], which stops at the first error or short count. *)
#[global] Instance multiWriter_Writer {A B} `{Writer A, Writer B} :
  Writer (multiWriter A B) :=
  λ t p,
    let '(a, (n, err)) := Write (writer0 t) p in
    match err with
    | Some e => (MultiWriter a (writer1 t), (n, Some e))
    | None =>
        if negb (n =? Z.of_nat (length p))
        then (MultiWriter a (writer1 t), (n, Some ErrShortWrite))
        else
          let '(b, (n, err)) := Write (writer1 t) p in
          match err with
          | Some e => (MultiWriter a b, (n, Some e))
          | None =>
              if negb (n =? Z.of_nat (length p))
              then (MultiWriter a b, (n, Some ErrShortWrite))
              else (MultiWriter a b, (Z.of_nat (length p), None))
          end
    end.

(** [int64] addition. *)
Definition i64 (z : Z) : Z := (z + 2 ^ 63) mod 2 ^ 64 - 2 ^ 63.

(** The loop of [io.copyBuffer], one iteration per [Read]:
    [nr, er := src.Read(buf)], the write of [buf[0:nr]] when [nr > 0], then
    the test of [er]. *)
Fixpoint copyBuffer {W} `{Writer W} (dst : W) (src : Reader) (written : Z)
  : W * Reader * (Z * option error) :=
  match src with
  | [] => (dst, [], (written, None))
  | (buf, er) :: src' =>
      let nr := Z.of_nat (length buf) in
      let after_read dst written :=
        match er with
        | Some e => (dst, src', (written, if decide (e = EOF) then None else Some e))
        | None => copyBuffer dst src' written
        end in
      if 0 <? nr then
        let '(dst', (nw, ew)) := Write dst buf in
        let '(nw, ew) :=
          if (nw <? 0) || (nr <? nw)
          then (0, Some (default errInvalidWrite ew))
          else (nw, ew) in
        let written := i64 (written + nw) in
        match ew with
        | Some e => (dst', src', (written, Some e))
        | None =>
            if negb (nr =? nw) then (dst', src', (written, Some ErrShortWrite))
            else after_read dst' written
        end
      else after_read dst written
  end.

(** [func Copy(dst Writer, src Reader) (written int64, err error)]. *)
Definition Copy {W} `{Writer W} (dst : W) (src : Reader)
  : W * Reader * (Z * option error) :=
  copyBuffer dst src 0.

End io.

(** ** pushpackage/checksum.go *)

(** [copyAndChecksum] calculates a checksum while writing to another output.
    The result carries the destination and the reader as the call leaves
    them, then the two values the Go function returns. *)
Definition copyAndChecksum {W} `{Writer W} (w : W) (r : Reader)
  : W * Reader * (string * option error) :=
  let h := sha512.New in
  let mw := io.MultiWriter w h in
  let '(mw, r', (_, err)) := io.Copy mw r in
  match err with
  | Some e => (io.writer0 mw, r', ("", Some e))
  | None =>
      (io.writer0 mw, r', (hex.EncodeToString (sha512.Sum (io.writer1 mw) []), None))
  end.

Definition bytes_of_string (s : string) : list byte :=
  map byte_of_ascii (list_ascii_of_string s).

(** ** Package payload: the APS dictionary *)

Module payload.

(** [type Alert struct]. *)
Record Alert : Type := mkAlert {
  Title : string;
  TitleLocKey : string;
  TitleLocArgs : list string;
  Subtitle : string;
  SubtitleLocKey : string;
  SubtitleLocArgs : list string;
  Body : string;
  LocKey : string;
  LocArgs : list string;
  ActionLocKey : string;
  LaunchImage : string;
  SafariAction : string
}.

(** [type Sound struct]. *)
Record Sound : Type := mkSound {
  SoundName : string;
  IsCritical : Z;
  CriticalVolume : spec_float
}.

(** The values [Map] stores under [interface{}]. *)
#[warnings="-register-all"]
Inductive value : Type :=
  | VString (s : string)
  | VAlert (a : Alert)
  | VUint (n : Z)
  | VInt (n : Z)
  | VSound (s : Sound)
  | VStrings (l : list string)
  | VInterruptionLevel (s : string)
  | VFloat32 (f : spec_float)
  | VMap (m : gmap string value).

Section APS.

(** Package [badge] is not among the sources: its type and the method
    [Number() (uint, bool)] that [Map] calls are parameters. *)
Context {Badge : Type} (Number : Badge → Z * bool).

(** [type APS struct]. *)
Record APS : Type := mkAPS {
  Alert_ : Alert;
  Badge_ : Badge;
  Sound_ : Sound;
  ThreadID : string;
  Category : string;
  ContentAvailable : bool;
  MutableContent : bool;
  TargetContentID : string;
  SafariURLArgs : list string;
  InterruptionLevel : string;
  RelevanceScore : spec_float
}.

Definition len (s : string) : nat := String.length s.

(** [isSimple] alert with only Body set. *)
Definition isSimple (a : Alert) : bool :=
  (len (Title a) =? 0)%nat && (len (Subtitle a) =? 0)%nat &&
  (len (LaunchImage a) =? 0)%nat &&
  (len (TitleLocKey a) =? 0)%nat && (length (TitleLocArgs a) =? 0)%nat &&
  (len (LocKey a) =? 0)%nat && (length (LocArgs a) =? 0)%nat &&
  (len (ActionLocKey a) =? 0)%nat.

(** [isZero] if no Alert fields are set. *)
Definition isZero (a : Alert) : bool :=
  (len (Body a) =? 0)%nat && isSimple a.

Definition nonempty (s : string) : bool := negb (String.eqb s "").

(** [Map] returns the payload as a map that you can customize before
    serializing it to JSON. *)
Definition Map (a : APS) : gmap string value :=
  let aps : gmap string value := ∅ in
  let aps :=
    if negb (isZero (Alert_ a)) then
      if isSimple (Alert_ a)
      then <["alert" := VString (Body (Alert_ a))]> aps
      else <["alert" := VAlert (Alert_ a)]> aps
    else aps in
  let aps :=
    let '(n, ok) := Number (Badge_ a) in
    if ok then <["badge" := VUint n]> aps else aps in
  let aps :=
    if nonempty (SoundName (Sound_ a))
    then <["sound" := VSound (Sound_ a)]> aps else aps in
  let aps :=
    if ContentAvailable a then <["content-available" := VInt 1]> aps else aps in
  let aps :=
    if nonempty (Category a)
    then <["category" := VString (Category a)]> aps else aps in
  let aps :=
    if MutableContent a then <["mutable-content" := VInt 1]> aps else aps in
  let aps :=
    if nonempty (ThreadID a)
    then <["thread-id" := VString (ThreadID a)]> aps else aps in
  let aps :=
    if nonempty (TargetContentID a)
    then <["target-content-id" := VString (TargetContentID a)]> aps else aps in
  let aps :=
    if (0 <? length (SafariURLArgs a))%nat
    then <["url-args" := VStrings (SafariURLArgs a)]> aps else aps in
  let aps :=
    if nonempty (InterruptionLevel a)
    then <["interruption-level" := VInterruptionLevel (InterruptionLevel a)]> aps
    else aps in
  let aps :=
    if SFltb (S754_zero false) (RelevanceScore a)
    then <["relevance-score" := VFloat32 (RelevanceScore a)]> aps else aps in
  (* wrap in "aps" to form the final payload *)
  {[ "aps" := VMap aps ]}.

End APS.

(** A badge as [Number] reports it: a number when one is set. *)
Definition optionNumber (b : option Z) : Z * bool :=
  match b with Some n => (n, true) | None => (0, false) end.

(** What [Map] does with the alert: the value stored under ["alert"], if
    any. *)
Definition alertValue (a : Alert) : option value :=
  if isZero a then None
  else if isSimple a then Some (VString (Body a))
  else Some (VAlert a).

(** [APS{Alert: Alert{Body: "Hello", SubtitleLocKey: "SUBTITLE_KEY"}}]. *)
Definition bodyAndSubtitleLocKey : APS (Badge := option Z) :=
  mkAPS (mkAlert "" "" [] "" "SUBTITLE_KEY" [] "Hello" "" [] "" "" "")
        None (mkSound "" 0 (S754_zero false)) "" "" false false "" [] ""
        (S754_zero false).

(** [APS{Alert: Alert{SafariAction: "View"}}]. *)
Definition safariActionOnly : APS (Badge := option Z) :=
  mkAPS (mkAlert "" "" [] "" "" [] "" "" [] "" "" "View")
        None (mkSound "" 0 (S754_zero false)) "" "" false false "" [] ""
        (S754_zero false).

(** The dictionary under ["aps"] of a payload map,
    [m["aps"].(map[string]interface{})]; empty when there is none. *)
Definition apsOf (m : gmap string value) : gmap string value :=
  match m !! "aps" with
  | Some (VMap aps) => aps
  | _ => ∅
  end.

(** The keys [Map] writes into the dictionary. *)
Definition apsKeys : list string :=
  [ "alert"; "badge"; "sound"; "content-available"; "category";
    "mutable-content"; "thread-id"; "target-content-id"; "url-args";
    "interruption-level"; "relevance-score" ].

Section Validate.

(** [badge.Preserve] and [ErrIncomplete] are declared outside the sources:
    they are parameters, with the equality [==] of the type [badge.Badge]. *)
Context {Badge : Type} `{EqDecision Badge} (Preserve : Badge).
Context (ErrIncomplete : error).

(** [Validate] that a payload has the correct fields.  The receiver is a
    pointer: [None] is [nil]. *)
Definition Validate (a : option (APS (Badge := Badge))) : option error :=
  match a with
  | None => Some ErrIncomplete
  | Some a =>
      (* must have a body or a badge (or custom data) *)
      if (len (Body (Alert_ a)) =? 0)%nat && bool_decide (Badge_ a = Preserve)
      then Some ErrIncomplete
      else None
  end.

End Validate.

(** [APS{Alert: Alert{Title: "News"}, Badge: badge.New(3),
    Sound: Sound{SoundName: "chime"}, ContentAvailable: true}]. *)
Definition titleBadgeSound : APS (Badge := option Z) :=
  mkAPS (mkAlert "News" "" [] "" "" [] "" "" [] "" "" "")
        (Some 3) (mkSound "chime" 0 (S754_zero false)) "" "" true false "" [] ""
        (S754_zero false).

(** [APS{Alert: Alert{Title: "News"}}]: a title, no body and no badge. *)
Definition titleOnly : APS (Badge := option Z) :=
  mkAPS (mkAlert "News" "" [] "" "" [] "" "" [] "" "" "")
        None (mkSound "" 0 (S754_zero false)) "" "" false false "" [] ""
        (S754_zero false).

End payload.

(** ** The push-package builder *)

Module pushpackage.

(** Modelled from the spec: the builder's states (section 4.4); the
    builder itself is not among the sources. *)
Inductive State : Type :=
  | Empty | WritingFiles | ManifestReady | Signed | Finalized.

#[global] Instance State_eq_dec : EqDecision State.
Proof. solve_decision. Defined.

(** Modelled from the spec: the state that follows each state in
    [Empty → WritingFiles → ManifestReady → Signed → Finalized]; the
    builder is not among the sources. *)
Definition next (st : State) : option State :=
  match st with
  | Empty => Some WritingFiles
  | WritingFiles => Some ManifestReady
  | ManifestReady => Some Signed
  | Signed => Some Finalized
  | Finalized => None
  end.

(** Modelled from the spec: the error taxonomy of section 7, with the file
    or archive entry concerned; [StateViolation] is the error of an
    operation attempted in a state that does not allow it, such as a write
    after finalization.  No error type of the builder is among the
    sources. *)
Inductive Failure : Type :=
  | ReadFailure (path : string) (cause : error)
  | WriteFailure (path : string) (cause : error)
  | DuplicatePath (path : string)
  | SigningFailure
  | ArchiveWriteFailure (entry : string) (cause : error)
  | StateViolation (st : State).

Inductive result (A : Type) : Type :=
  | Ok (a : A)
  | Err (f : Failure).
#[global] Arguments Ok {A} _.
#[global] Arguments Err {A} _.

#[global] Instance result_bind : MBind result :=
  λ A B k r, match r with Ok a => k a | Err f => Err f end.

(** Modelled from the spec: a FileEntry (section 3), a relative path and
    a content stream read once; the type is not among the sources. *)
Record FileEntry : Type := mkFileEntry {
  path : string;
  content : Reader
}.

(** The content of a stream: the bytes its [Read] calls return up to the
    first call that reports [io.EOF] or an error. *)
Fixpoint contentOf (r : Reader) : list byte :=
  match r with
  | [] => []
  | (buf, None) :: r' => buf ++ contentOf r'
  | (buf, Some _) :: _ => buf
  end.

(** Modelled from the spec: the Manifest (section 3), an ordered mapping
    from path to lowercase hex digest, in insertion order; the type is not
    among the sources. *)
Definition Manifest : Type := list (string * string).

(** Modelled from the spec: the SigningIdentity and the detached Signature
    it produces (sections 3 and 4.3), opaque to the builder; signing can
    fail, and a signature made over some bytes verifies against those
    bytes.  No signer is among the sources. *)
Class SigningScheme : Type := {
  Identity : Type;
  sign : Identity → list byte → option (list byte);
  verify : Identity → list byte → list byte → bool;
  verify_sign id m sig : sign id m = Some sig → verify id m sig = true
}.

(** Modelled from the spec: a valid identity is one whose private key is
    usable, so that signing succeeds (section 4.3). *)
Definition usable `{SigningScheme} (id : Identity) : Prop :=
  ∀ m, is_Some (sign id m).

(** JSON strings: a double quote or a backslash is escaped with a
    backslash. *)
Definition quote : string := String "034" "".

Fixpoint escape (s : string) : string :=
  match s with
  | "" => ""
  | String c s' =>
      if Ascii.eqb c "034" || Ascii.eqb c "092"
      then String "092" (String c (escape s'))
      else String c (escape s')
  end%string.

Definition jsonString (s : string) : string :=
  (quote +:+ escape s +:+ quote)%string.

Definition member (kv : string * string) : string :=
  (jsonString kv.1 +:+ ":" +:+ jsonString kv.2)%string.

Fixpoint members (m : Manifest) : string :=
  match m with
  | [] => ""
  | [kv] => member kv
  | kv :: m' => member kv +:+ "," +:+ members m'
  end%string.

(** Modelled from the spec: the canonical JSON of a manifest (sections 4.3
    and 6), an object with one member per path, in insertion order, the same
    bytes every time for the same manifest; the serializer is not among the
    sources. *)
Definition serialize (m : Manifest) : list byte :=
  bytes_of_string ("{" +:+ members m +:+ "}")%string.

(** Modelled from the spec: the writer of one stored archive entry
    (section 4.4, step 1).  It forwards to the output target, keeps what
    the entry holds, and remembers a failed write, which is how a failed
    copy is told apart as a write failure or a read failure.  The archive
    writer is not among the sources. *)
Record EntryWriter : Type := mkEntryWriter {
  target : Dest;
  stored : list byte;
  werr : option error
}.

#[global] Instance EntryWriter_Writer : Writer EntryWriter :=
  λ w p,
    let '(t, (n, err)) := Write (target w) p in
    let failed :=
      match err with
      | Some e => Some e
      | None => if negb (n =? Z.of_nat (length p)) then Some ErrShortWrite
                else werr w
      end in
    (mkEntryWriter t (stored w ++ take (Z.to_nat n) p) failed, (n, err)).

(** Modelled from the spec: one build (section 9: a fresh, explicitly
    constructed builder value): its state, the output target, the entries
    stored so far, the manifest, and the manifest bytes once serialized.
    The builder is not among the sources. *)
Record Builder : Type := mkBuilder {
  state : State;
  out : Dest;
  entries : list (string * list byte);
  manifest : Manifest;
  manifestBytes : list byte
}.

Definition new (dst : Dest) : Builder := mkBuilder Empty dst [] [] [].

(** Modelled from the spec: writing one of the assembler's own entries
    (section 4.4, steps 2 and 3, and the closing directory); a failed or
    short write is an ArchiveWriteFailure. *)
Definition writeEntry (name : string) (data : list byte) (b : Builder)
  : result Builder :=
  let '(t, (n, err)) := Write (out b) data in
  match err with
  | Some e => Err (ArchiveWriteFailure name e)
  | None =>
      if negb (n =? Z.of_nat (length data))
      then Err (ArchiveWriteFailure name ErrShortWrite)
      else Ok (mkBuilder (state b) t (entries b ++ [(name, data)])
                         (manifest b) (manifestBytes b))
  end.

Definition setState (st : State) (b : Builder) : Builder :=
  mkBuilder st (out b) (entries b) (manifest b) (manifestBytes b).

(** Modelled from the spec: the start of a build, [Empty → WritingFiles]. *)
Definition start (b : Builder) : result Builder :=
  match state b with
  | Empty => Ok (setState WritingFiles b)
  | st => Err (StateViolation st)
  end.

(** Modelled from the spec: sections 4.2 and 4.4, step 1.  The entry's
    content is written as a stored entry named by its path while its
    checksum is computed in the same pass by [copyAndChecksum]; a path the
    manifest already has is rejected with DuplicatePath, never
    overwritten. *)
Definition addFile (e : FileEntry) (b : Builder) : result Builder :=
  match state b with
  | WritingFiles =>
      if decide (path e ∈ (manifest b).*1) then Err (DuplicatePath (path e))
      else
        let '(w, _, (sum, err)) :=
          copyAndChecksum (mkEntryWriter (out b) [] None) (content e) in
        match err with
        | Some cause =>
            Err (match werr w with
                 | Some _ => WriteFailure (path e) cause
                 | None => ReadFailure (path e) cause
                 end)
        | None =>
            Ok (mkBuilder WritingFiles (target w)
                          (entries b ++ [(path e, stored w)])
                          (manifest b ++ [(path e, sum)])
                          (manifestBytes b))
        end
  | st => Err (StateViolation st)
  end.

(** Modelled from the spec: section 4.4, step 2,
    [WritingFiles → ManifestReady]. *)
Definition writeManifest (b : Builder) : result Builder :=
  match state b with
  | WritingFiles =>
      let data := serialize (manifest b) in
      b ← writeEntry "manifest.json" data b;
      Ok (mkBuilder ManifestReady (out b) (entries b) (manifest b) data)
  | st => Err (StateViolation st)
  end.

(** Modelled from the spec: the check of the input set (section 3: paths
    are unique within one package), which is not among the sources: the
    first path that occurs a second time. *)
Fixpoint findDuplicate (seen : gset string) (paths : list string)
  : option string :=
  match paths with
  | [] => None
  | p :: paths' =>
      if decide (p ∈ seen) then Some p
      else findDuplicate ({[p]} ∪ seen) paths'
  end.

(** Modelled from the spec: the files are added in the order given
    (section 4.2), stopping at the first failure. *)
Fixpoint addFiles (files : list FileEntry) (b : Builder) : result Builder :=
  match files with
  | [] => Ok b
  | e :: files' => b ← addFile e b; addFiles files' b
  end.

(** Modelled from the spec: the Manifest Builder (section 4.2), which is
    not among the sources: the manifest once every file has been written
    into the archive. *)
Definition buildManifest (files : list FileEntry) (dst : Dest)
  : result Manifest :=
  match findDuplicate ∅ (path <$> files) with
  | Some p => Err (DuplicatePath p)
  | None =>
      b ← start (new dst);
      b ← addFiles files b;
      Ok (manifest b)
  end.

Section Signing.

Context `{SigningScheme}.

(** Modelled from the spec: section 4.4, step 3,
    [ManifestReady → Signed]; the signature is made over the bytes
    written as [manifest.json]. *)
Definition signManifest (id : Identity) (b : Builder) : result Builder :=
  match state b with
  | ManifestReady =>
      match sign id (manifestBytes b) with
      | None => Err SigningFailure
      | Some sig =>
          b ← writeEntry "signature" sig b;
          Ok (setState Signed b)
      end
  | st => Err (StateViolation st)
  end.

(** Modelled from the spec: the terminating directory structure of the
    archive (section 4.4); it lists the names of the entries.  The archive
    writer is not among the sources. *)
Definition directory (b : Builder) : list byte :=
  bytes_of_string (fold_right (λ name acc, name +:+ String "010" acc)%string
                              ""%string (entries b).*1).

(** Modelled from the spec: the archive is finalized by writing its
    directory (section 4.4), [Signed → Finalized]. *)
Definition finalize (b : Builder) : result Builder :=
  match state b with
  | Signed =>
      let '(t, (n, err)) := Write (out b) (directory b) in
      match err with
      | Some e => Err (ArchiveWriteFailure "" e)
      | None =>
          if negb (n =? Z.of_nat (length (directory b)))
          then Err (ArchiveWriteFailure "" ErrShortWrite)
          else Ok (mkBuilder Finalized t (entries b) (manifest b)
                             (manifestBytes b))
      end
  | st => Err (StateViolation st)
  end.

(** Modelled from the spec: the operations of a build (section 4.4), in
    place of the builder's methods, which are not among the sources. *)
Inductive Op : Type :=
  | Start
  | AddFile (e : FileEntry)
  | WriteManifest
  | Sign (id : Identity)
  | Finalize.

(** Modelled from the spec: one operation on the builder. *)
Definition step (op : Op) (b : Builder) : result Builder :=
  match op with
  | Start => start b
  | AddFile e => addFile e b
  | WriteManifest => writeManifest b
  | Sign id => signManifest id b
  | Finalize => finalize b
  end.

(** Modelled from the spec: operations run until one fails (section 7:
    every failure aborts the remaining steps immediately); [trace] records
    each state entered. *)
Fixpoint run (ops : list Op) (b : Builder) (trace : list State)
  : list State * result Builder :=
  match ops with
  | [] => (trace, Ok b)
  | op :: ops' =>
      match step op b with
      | Err f => (trace, Err f)
      | Ok b' =>
          run ops' b'
              (if decide (state b' = state b) then trace
               else trace ++ [state b'])
      end
  end.

(** Modelled from the spec: the pipeline of sections 2 and 4.4. *)
Definition pipeline (files : list FileEntry) (id : Identity) : list Op :=
  Start :: map AddFile files ++ [WriteManifest; Sign id; Finalize].

(** Modelled from the spec: the final archive, a collection of stored
    entries (section 3), and the bytes written to the output target. *)
Record Package : Type := mkPackage {
  archive : list (string * list byte);
  output : list byte
}.

(** Modelled from the spec: one package build (sections 2, 4.4 and 7); of
    package [pushpackage] only [copyAndChecksum] is among the sources.  The
    input set is checked for a duplicate path before anything is written;
    then the pipeline runs.  The result is the states the build went through
    and either the finalized archive or the failure, never both an archive
    and a failure. *)
Definition build (files : list FileEntry) (id : Identity) (dst : Dest)
  : list State * result Package :=
  match findDuplicate ∅ (path <$> files) with
  | Some p => ([Empty], Err (DuplicatePath p))
  | None =>
      let '(trace, r) := run (pipeline files id) (new dst) [Empty] in
      (trace, b ← r; Ok (mkPackage (entries b) (received (out b))))
  end.

End Signing.

(** The states a build has entered, in order, once it is in [st]. *)
Definition upto (st : State) : list State :=
  match st with
  | Empty => [Empty]
  | WritingFiles => [Empty; WritingFiles]
  | ManifestReady => [Empty; WritingFiles; ManifestReady]
  | Signed => [Empty; WritingFiles; ManifestReady; Signed]
  | Finalized => [Empty; WritingFiles; ManifestReady; Signed; Finalized]
  end.

(** A file as the manifest sees it, its path and its content, and the
    manifest entry of such a file. *)
Definition fileKey (e : FileEntry) : string * list byte :=
  (path e, contentOf (content e)).

Definition manifestEntry (kc : string * list byte) : string * string :=
  (kc.1, hex.EncodeToString (sha512.Sum512 kc.2)).

(** A signing scheme to run builds with: the signature of [m] under a key
    is the SHA-512 digest of the key followed by [m]; an identity whose key
    is empty is unusable. *)
Definition macSign (key m : list byte) : option (list byte) :=
  match key with
  | [] => None
  | _ => Some (sha512.Sum512 (key ++ m))
  end.

Definition macVerify (key m sig : list byte) : bool :=
  bool_decide (Some sig = macSign key m).

Definition macScheme : SigningScheme.
Proof.
  refine {| Identity := list byte; sign := macSign; verify := macVerify |}.
  intros id m sig Hsig. unfold macVerify. by rewrite Hsig, bool_decide_eq_true.
Defined.

End pushpackage.

(** ** Example sources, destinations and packages *)

Module example.

Import pushpackage.

(** A source that delivers [abc] in two reads, the second with [io.EOF]. *)
Definition abcReader : Reader :=
  [(bytes_of_string "a", None); (bytes_of_string "bc", Some EOF)].

Definition abcDigest : string :=
  "ddaf35a193617abacc417349ae20413112e6fa4e89a97ea20a9eeee64b55d39a2192992a274fc1a836ba3c23a3feebbd454d4423643ce80e2a9ac94fa54ca49f".

(** The buffer after [a] and [bc] have been written to it. *)
Definition abcBuffer : Dest :=
  mkDest (bytes_of_string "abc") [bytes_of_string "a"; bytes_of_string "bc"]
         (respond Buffer).

Definition connectionReset : error := ErrOther "connection reset by peer".
Definition noSpace : error := ErrOther "no space left on device".

(** A disk with room for two bytes, after [ab] has been written to it and
    after the write of [cd] it then refuses. *)
Definition fullDisk : Dest :=
  mkDest (bytes_of_string "ab") [bytes_of_string "ab"]
         (respond (Limited 2 noSpace)).

Definition failedDisk : Dest :=
  mkDest (bytes_of_string "ab") [bytes_of_string "ab"; bytes_of_string "cd"]
         (respond (Limited 2 noSpace)).

(** A destination that takes nothing and reports no error. *)
Definition Stalled : Dest := mkDest [] [] (λ _ _, (0, None)).

Definition stalledAfter (p : list byte) : Dest :=
  mkDest [] [p] (respond Stalled).

(** A source with nothing to read: a read of no bytes, then [io.EOF]. *)
Definition emptyReader : Reader := [([], None); ([], Some EOF)].

Definition iconX : FileEntry :=
  mkFileEntry "icon.png" [(bytes_of_string "X", Some EOF)].
Definition iconY : FileEntry :=
  mkFileEntry "icon.png" [(bytes_of_string "Y", Some EOF)].
Definition icon2x : FileEntry :=
  mkFileEntry "icon@2x.png" [(bytes_of_string "YY", Some EOF)].
(** The same content as [icon2x], delivered in two reads. *)
Definition icon2x' : FileEntry :=
  mkFileEntry "icon@2x.png"
              [(bytes_of_string "Y", None); (bytes_of_string "Y", None)].

Definition key : list byte := bytes_of_string "key".

(** A source that delivers [abc] in one read, and the buffer after it. *)
Definition abcOnce : Reader := [(bytes_of_string "abc", Some EOF)].

Definition abcBufferOnce : Dest :=
  mkDest (bytes_of_string "abc") [bytes_of_string "abc"] (respond Buffer).

(** A source whose second read returns [bc] together with an error. *)
Definition abcReset : Reader :=
  [(bytes_of_string "a", None); (bytes_of_string "bc", Some connectionReset)].

(** A value for the parameter [ErrIncomplete]. *)
Definition incomplete : error := ErrOther "incomplete payload".

(** Builders in the states ManifestReady, Signed and Finalized of a build
    from no files. *)
Definition emptyManifest : list byte := bytes_of_string "{}".

Definition readyBuilder : Builder :=
  mkBuilder ManifestReady Buffer [("manifest.json", emptyManifest)] []
            emptyManifest.

Definition finalBuilder : Builder :=
  mkBuilder Finalized Buffer [("manifest.json", emptyManifest)] []
            emptyManifest.

End example.

(** * Properties *)

(** ** SHA-512 test vectors (FIPS 180-4 examples) *)

Example Sum512_abc :
  hex.EncodeToString (sha512.Sum512 (bytes_of_string "abc")) = example.abcDigest.
Proof. vm_compute. reflexivity. Qed.

Example Sum512_two_blocks :
  hex.EncodeToString
    (sha512.Sum512
       (bytes_of_string
          "abcdefghbcdefghicdefghijdefghijkefghijklfghijklmghijklmnhijklmnoijklmnopjklmnopqklmnopqrlmnopqrsmnopqrstnopqrstu"))
  = "8e959b75dae313da8cf4f72814fc143f8f7779c6eb9f7fa17299aeadb6889018501d289e4900f7e4331b99dec4b5433ac7d329eeb6dd26545e96e55b874be909".
Proof. vm_compute. reflexivity. Qed.

Example digest_two_writes :
  hex.EncodeToString
    (sha512.Sum
       (sha512.write (sha512.write sha512.New (bytes_of_string "a"))
                     (bytes_of_string "bc")) [])
  = example.abcDigest.
Proof. vm_compute. reflexivity. Qed.

(** ** The streaming digest computes [Sum512] *)

Section Sha512Stream.

Import sha512.

Lemma chunk_pos : (0 < chunk)%nat.
Proof. unfold chunk. lia. Qed.

Lemma blockLoop_app k j hs (a b : list byte) :
  length a = (k * chunk)%nat →
  blockLoop (k + j) hs (a ++ b) = blockLoop j (blockLoop k hs a) b.
Proof.
  revert hs a. induction k as [|k IH]; intros hs a Ha.
  - destruct a; [done | simpl in Ha; lia].
  - rewrite Nat.mul_succ_l in Ha. cbn [Nat.add blockLoop].
    rewrite take_app_le, drop_app_le by lia.
    apply IH. rewrite length_drop. lia.
Qed.

Lemma block_app hs (a b : list byte) k :
  length a = (k * chunk)%nat →
  block hs (a ++ b) = block (block hs a) b.
Proof.
  intros Ha. unfold block. rewrite length_app, Ha.
  rewrite Nat.div_add_l, Nat.div_mul by (unfold chunk; lia).
  by apply blockLoop_app.
Qed.

Lemma block_short hs (a : list byte) :
  (length a < chunk)%nat → block hs a = hs.
Proof. intros Ha. unfold block. by rewrite Nat.div_small. Qed.

Lemma block_app_short hs (a b : list byte) k :
  length a = (k * chunk)%nat → (length b < chunk)%nat →
  block hs (a ++ b) = block hs a.
Proof.
  intros Ha Hb. rewrite (block_app _ _ _ k) by done. by apply block_short.
Qed.

Lemma u64_add_l a b : u64 (u64 a + b) = u64 (a + b).
Proof. unfold u64. by rewrite Zplus_mod_idemp_l. Qed.

Lemma New_absorbed : absorbed New [].
Proof.
  exists [], 0%nat. repeat split; try reflexivity.
  cbn. unfold chunk. lia.
Qed.

(** The last two steps of [write] on a digest whose buffer is empty: the
    complete chunks of [p] are hashed and the rest is buffered. *)
Lemma write_tail hs (m1 p : list byte) k l :
  length m1 = (k * chunk)%nat →
  let n := (length p / chunk * chunk)%nat in
  uncurry keepRest (hashChunks (mkDigest (block hs m1) [] l) p)
  = mkDigest (block hs (m1 ++ take n p)) (drop n p) l.
Proof.
  intros Hm1 n. unfold hashChunks, keepRest. cbn [h x len].
  pose proof chunk_pos as Hc.
  assert (Hn : (length p = n + length p mod chunk)%nat).
  { subst n. rewrite Nat.mul_comm. apply Nat.div_mod_eq. }
  assert (Hr : (length p mod chunk < chunk)%nat) by (apply Nat.mod_upper_bound; lia).
  destruct (chunk <=? length p)%nat eqn:Hle; cbn [uncurry h x len].
  - rewrite <- (block_app _ _ _ k) by done. fold n.
    destruct (0 <? length (drop n p))%nat eqn:Hd; cbn [h x len]; [done|].
    apply Nat.ltb_ge in Hd. f_equal. symmetry.
    apply length_zero_iff_nil. lia.
  - apply Nat.leb_gt in Hle.
    assert (n = 0)%nat as -> by (subst n; by rewrite Nat.div_small).
    rewrite take_0, drop_0, app_nil_r.
    destruct (0 <? length p)%nat eqn:Hd; cbn [h x len]; [done|].
    apply Nat.ltb_ge in Hd. f_equal. symmetry.
    apply length_zero_iff_nil. lia.
Qed.

Lemma write_unfold d p :
  write d p =
  let d0 := mkDigest (h d) (x d) (u64 (len d + Z.of_nat (length p))) in
  uncurry keepRest (uncurry hashChunks (fillBuffer d0 p)).
Proof.
  unfold write. cbn zeta.
  destruct (fillBuffer _ p) as [d1 p1]. cbn [uncurry].
  by destruct (hashChunks d1 p1).
Qed.

(** Writing [p] to a digest that has absorbed [m] gives one that has
    absorbed [m ++ p]. *)
Lemma write_absorbed d m p :
  absorbed d m → absorbed (write d p) (m ++ p).
Proof.
  intros (m1 & k & -> & Hm1 & Hx & Hh & Hlen).
  pose proof chunk_pos as Hc.
  rewrite write_unfold. cbn zeta.
  destruct d as [hs xb l]. cbn [h x len] in *. subst hs.
  assert (Hl : u64 (l + Z.of_nat (length p))
               = u64 (Z.of_nat (length ((m1 ++ xb) ++ p)))).
  { rewrite Hlen, u64_add_l. f_equal. rewrite !length_app. lia. }
  rewrite Hl. clear Hl Hlen l.
  set (l := u64 _).
  unfold fillBuffer, nx. cbn [h x len].
  destruct (0 <? length xb)%nat eqn:Hnx.
  - set (n := Nat.min (chunk - length xb) (length p)).
    destruct (length (xb ++ take n p) =? chunk)%nat eqn:Hfull; cbn [uncurry].
    + apply Nat.eqb_eq in Hfull.
      rewrite <- (block_app _ _ _ k) by done.
      rewrite (write_tail _ _ _ (S k)).
      2:{ rewrite length_app, Hfull, Hm1. lia. }
      set (p' := drop n p). set (n' := (length p' / chunk * chunk)%nat).
      exists ((m1 ++ xb ++ take n p) ++ take n' p'), (S k + length p' / chunk)%nat.
      cbn [h x len]. repeat split.
      * rewrite <- (take_drop n p) at 1. fold p'.
        rewrite <- (take_drop n' p') at 1. by rewrite <- !app_assoc.
      * rewrite length_app, (length_app m1), Hfull, Hm1, length_take.
        assert (n' ≤ length p')%nat by (subst n'; rewrite Nat.mul_comm; apply Nat.Div0.mul_div_le).
        subst n'. lia.
      * rewrite length_drop.
        pose proof (Nat.div_mod_eq (length p') chunk).
        pose proof (Nat.mod_upper_bound (length p') chunk).
        subst n'. lia.
    + apply Nat.eqb_neq in Hfull.
      rewrite length_app, length_take in Hfull.
      assert (Hn : n = length p) by lia.
      rewrite Hn, drop_all, firstn_all in *.
      unfold hashChunks, keepRest. cbn.
      exists m1, k. cbn [h x len]. repeat split; try done.
      * by rewrite app_assoc.
      * rewrite length_app. lia.
  - apply Nat.ltb_ge in Hnx.
    assert (xb = []) as -> by (apply length_zero_iff_nil; lia).
    cbn [uncurry]. rewrite (write_tail _ _ _ k) by done.
    set (n' := (length p / chunk * chunk)%nat).
    exists (m1 ++ take n' p), (k + length p / chunk)%nat.
    cbn [h x len]. repeat split.
    + rewrite app_nil_r, <- app_assoc. by rewrite take_drop.
    + rewrite length_app, Hm1, length_take.
      assert (n' ≤ length p)%nat by (subst n'; rewrite Nat.mul_comm; apply Nat.Div0.mul_div_le).
      subst n'. lia.
    + rewrite length_drop.
      pose proof (Nat.div_mod_eq (length p) chunk).
      pose proof (Nat.mod_upper_bound (length p) chunk).
      subst n'. lia.
Qed.

Lemma bePutUint64_0 : bePutUint64 0 = repeat x00 8.
Proof. reflexivity. Qed.

(** What [checkSum] writes is the padding of FIPS 180-4. *)
Lemma pad_padlen (m : list byte) :
  pad m = m ++ padlen (u64 (Z.of_nat (length m))).
Proof.
  unfold pad, padlen. f_equal. f_equal.
  set (l := Z.of_nat (length m)).
  assert (Hmod : u64 l mod 128 = l mod 128).
  { unfold u64. apply Z.mod_mod_divide. exists (2 ^ 57). reflexivity. }
  rewrite Hmod, bePutUint64_0, app_assoc, <- repeat_app.
  f_equal.
  - f_equal. destruct (l mod 128 <? 112) eqn:Hlt.
    + apply Z.ltb_lt in Hlt. Z.div_mod_to_equations. lia.
    + apply Z.ltb_ge in Hlt. Z.div_mod_to_equations. lia.
  - f_equal. rewrite Z.shiftl_mul_pow2 by lia. unfold u64.
    rewrite Zmult_mod_idemp_l. f_equal. lia.
Qed.

Lemma bePutUint64_length v : length (bePutUint64 v) = 8%nat.
Proof. reflexivity. Qed.

Lemma pad_length (m : list byte) :
  ∃ k, length (pad m) = (k * chunk)%nat.
Proof.
  unfold pad. rewrite length_app. cbn [length].
  rewrite !length_app, !bePutUint64_length, repeat_length.
  set (l := Z.of_nat (length m)).
  set (k := (112 - (l + 1)) mod 128).
  assert (Hk : 0 ≤ k < 128) by (apply Z.mod_pos_bound; lia).
  exists (Z.to_nat ((l + 17 + k) / 128)).
  apply Nat2Z.inj. rewrite Nat2Z.inj_mul, Z2Nat.id.
  2:{ apply Z.div_pos; lia. }
  unfold chunk.
  replace (Z.of_nat (length m + S (Z.to_nat k + (8 + 8)))) with (l + 17 + k) by lia.
  assert ((l + 17 + k) mod 128 = 0).
  { subst k. rewrite <- Zplus_mod_idemp_r, Zmod_mod, Zplus_mod_idemp_r.
    replace (l + 17 + (112 - (l + 1))) with (1 * 128) by lia.
    apply Z_mod_mult. }
  Z.div_mod_to_equations. lia.
Qed.

(** [checkSum] of a digest that has absorbed [m] is the reference digest
    of [m]. *)
Lemma checkSum_absorbed d m : absorbed d m → checkSum d = Sum512 m.
Proof.
  intros Hd. unfold checkSum, Sum512.
  assert (Hlen : len d = u64 (Z.of_nat (length m))).
  { by destruct Hd as (? & ? & ? & ? & ? & ? & ?). }
  apply (write_absorbed _ _ (padlen (len d))) in Hd.
  rewrite Hlen, <- pad_padlen in Hd.
  destruct Hd as (m1 & k & Hm & Hm1 & Hx & Hh & _).
  destruct (pad_length m) as [q Hq].
  pose proof chunk_pos.
  assert (Hnil : length (x (write d (padlen (u64 (Z.of_nat (length m)))))) = 0%nat).
  { rewrite Hm, length_app, Hm1 in Hq.
    assert (k = q ∨ k < q ∨ q < k)%nat as [->|[?|?]] by lia; [lia|nia|nia]. }
  apply length_zero_iff_nil in Hnil.
  rewrite Hnil, app_nil_r in Hm. rewrite Hlen, Hh. by subst m1.
Qed.

(** For a message shorter than [2^61] bytes, whose length in bits fits the
    64 bits [checkSum] writes, [Sum512] is the function of FIPS 180-4. *)
Lemma Sum512_fips (m : list byte) :
  Z.of_nat (length m) < 2 ^ 61 → Sum512 m = fips m.
Proof.
  intros Hm. unfold Sum512, fips, pad, fipsPad.
  assert (Hl : 0 ≤ 8 * Z.of_nat (length m) < 2 ^ 64).
  { change (2 ^ 61) with 2305843009213693952 in Hm.
    change (2 ^ 64) with 18446744073709551616. lia. }
  rewrite Z.shiftr_div_pow2, Z.div_small by lia.
  unfold u64. by rewrite (Z.mod_small _ _ Hl).
Qed.

Lemma writes_absorbed bufs d m :
  absorbed d m → absorbed (fold_left write bufs d) (m ++ concat bufs).
Proof.
  revert d m. induction bufs as [|buf bufs IH]; intros d m Hd; cbn.
  - by rewrite app_nil_r.
  - rewrite app_assoc. apply IH. by apply write_absorbed.
Qed.

End Sha512Stream.

(** ** [io.MultiWriter] and [io.Copy] over the destination and the digest *)

(** The two cases of an iteration of the copy loop: a read that returned no
    bytes, for which no write is made, and one that returned some. *)
Ltac empty_or_not buf H :=
  destruct (length buf =? 0)%nat eqn:H;
  [ apply Nat.eqb_eq, length_zero_iff_nil in H; subst buf
  | apply Nat.eqb_neq in H ].

Section CopyLoop.

Context {W : Type} `{Writer W}.

Implicit Types (w : W) (d : sha512.digest) (r : Reader) (buf : list byte).

(** One [Write] to the multi-writer: the destination is written first, and
    the digest only when the destination took the whole buffer. *)
Lemma multiWriter_Write w d buf :
  Write (io.MultiWriter w d) buf =
  let '(w', (n, err)) := Write w buf in
  match err with
  | Some e => (io.MultiWriter w' d, (n, Some e))
  | None =>
      if n =? Z.of_nat (length buf)
      then (io.MultiWriter w' (sha512.write d buf), (Z.of_nat (length buf), None))
      else (io.MultiWriter w' d, (n, Some ErrShortWrite))
  end.
Proof.
  unfold Write at 1, io.multiWriter_Writer. cbn [io.writer0 io.writer1].
  destruct (Write w buf) as [w' [n [e|]]]; [done|].
  destruct (n =? Z.of_nat (length buf)) eqn:Hn; cbn [negb]; [|done].
  unfold Write, sha512.digest_Writer. by rewrite Z.eqb_refl.
Qed.

(** One iteration of the copy loop, by what the destination answers. *)
Lemma copyBuffer_cons w d buf er r n0 :
  io.copyBuffer (io.MultiWriter w d) ((buf, er) :: r) n0 =
  let after_read mw n :=
    match er with
    | Some e => (mw, r, (n, if decide (e = EOF) then None else Some e))
    | None => io.copyBuffer mw r n
    end in
  if (length buf =? 0)%nat then after_read (io.MultiWriter w d) n0
  else
    let '(w', (n, err)) := Write w buf in
    match err with
    | Some e =>
        (io.MultiWriter w' d, r,
         (io.i64 (n0 + (if (n <? 0) || (Z.of_nat (length buf) <? n) then 0 else n)),
          Some e))
    | None =>
        if n =? Z.of_nat (length buf)
        then after_read (io.MultiWriter w' (sha512.write d buf))
                        (io.i64 (n0 + Z.of_nat (length buf)))
        else (io.MultiWriter w' d, r,
              (io.i64 (n0 + (if (n <? 0) || (Z.of_nat (length buf) <? n) then 0 else n)),
               Some ErrShortWrite))
    end.
Proof.
  cbn [io.copyBuffer]. cbn zeta.
  destruct (length buf =? 0)%nat eqn:Hlen.
  - apply Nat.eqb_eq in Hlen. rewrite Hlen. done.
  - apply Nat.eqb_neq in Hlen.
    assert ((0 <? Z.of_nat (length buf)) = true) as -> by (apply Z.ltb_lt; lia).
    rewrite multiWriter_Write.
    destruct (Write w buf) as [w' [n [e|]]].
    + by destruct ((n <? 0) || (Z.of_nat (length buf) <? n)).
    + destruct (n =? Z.of_nat (length buf)) eqn:Hn.
      * assert ((Z.of_nat (length buf) <? 0) || (Z.of_nat (length buf) <? Z.of_nat (length buf)) = false) as ->.
        { apply orb_false_intro; apply Z.ltb_ge; lia. }
        by rewrite Z.eqb_refl.
      * rewrite Z.eqb_sym in Hn.
        by destruct ((n <? 0) || (Z.of_nat (length buf) <? n)).
Qed.

Lemma writeAll_cons w buf bufs w1 :
  buf ≠ [] → Write w buf = (w1, (Z.of_nat (length buf), None)) →
  writeAll w (buf :: bufs) = writeAll w1 bufs.
Proof.
  intros Hbuf HW. cbn [writeAll]. rewrite HW, Z.eqb_refl.
  destruct buf; [done|]. done.
Qed.

Lemma writeAll_app w bufs1 bufs2 :
  writeAll w (bufs1 ++ bufs2) = w1 ← writeAll w bufs1; writeAll w1 bufs2.
Proof.
  revert w. induction bufs1 as [|buf bufs1 IH]; intros w; [done|].
  cbn [app writeAll]. destruct (length buf =? 0)%nat; [done|].
  destruct (Write w buf) as [w1 [n [e|]]]; [done|].
  by destruct (n =? Z.of_nat (length buf)).
Qed.

(** A copy that ends without error: the reads it made, [taken], were all
    written to the destination in full and absorbed by the digest, and
    they are the whole content of the source. *)
Lemma copyBuffer_ok r w d n0 mw' r' n m :
  io.copyBuffer (io.MultiWriter w d) r n0 = (mw', r', (n, None)) →
  sha512.absorbed d m →
  ∃ taken,
    r = taken ++ r' ∧
    writeAll w taken.*1 = Some (io.writer0 mw') ∧
    sha512.absorbed (io.writer1 mw') (m ++ concat taken.*1) ∧
    pushpackage.contentOf r = concat taken.*1.
Proof.
  revert w d n0 m. induction r as [|[buf er] r IH]; intros w d n0 m Hcopy Hd.
  - cbn in Hcopy. simplify_eq. exists []. cbn. by rewrite app_nil_r.
  - rewrite copyBuffer_cons in Hcopy. cbn zeta in Hcopy.
    cbn [pushpackage.contentOf].
    empty_or_not buf Hlen.
    + destruct er as [e|].
      * case_decide; simplify_eq. exists [([], Some EOF)].
        cbn. by rewrite app_nil_r.
      * destruct (IH _ _ _ _ Hcopy Hd) as (taken & -> & Hw & Ha & Hc).
        by exists (([], None) :: taken).
    + assert (Hbuf : buf ≠ []) by (by intros ->).
      destruct (Write w buf) as [w1 [nw [e|]]] eqn:HW; [done|].
      destruct (nw =? Z.of_nat (length buf)) eqn:Hnw; [|done].
      apply Z.eqb_eq in Hnw. subst nw.
      pose proof (write_absorbed _ _ buf Hd) as Hd'.
      destruct er as [e|].
      * case_decide; simplify_eq. exists [(buf, Some EOF)].
        cbn [fmap list_fmap fst concat app].
        rewrite (writeAll_cons _ _ _ _ Hbuf HW), !app_nil_r. done.
      * destruct (IH _ _ _ _ Hcopy Hd') as (taken & -> & Hw & Ha & Hc).
        exists ((buf, None) :: taken).
        cbn [fmap list_fmap fst concat app].
        rewrite (writeAll_cons _ _ _ _ Hbuf HW), Hc.
        by rewrite <- app_assoc in Ha.
Qed.

(** A copy whose first reads, [pre], report no error and are taken in full
    by the destination goes on with the rest of the source, the digest
    having absorbed what was read. *)
Lemma copyBuffer_prefix pre w d n0 w1 :
  Forall (λ c, c.2 = None) pre →
  writeAll w pre.*1 = Some w1 →
  ∃ d1 n1,
    (∀ m, sha512.absorbed d m → sha512.absorbed d1 (m ++ concat pre.*1)) ∧
    ∀ rest, io.copyBuffer (io.MultiWriter w d) (pre ++ rest) n0
            = io.copyBuffer (io.MultiWriter w1 d1) rest n1.
Proof.
  revert w d n0. induction pre as [|[buf er] pre IH]; intros w d n0 Hpre Hw.
  - cbn in Hw. simplify_eq. exists d, n0. split; [|done].
    intros m Hm. cbn. by rewrite app_nil_r.
  - apply Forall_cons in Hpre as [Her Hpre]. cbn in Her. subst er.
    cbn [fmap list_fmap fst writeAll] in Hw.
    destruct (length buf =? 0)%nat eqn:Hlen.
    + destruct (IH w d n0 Hpre Hw) as (d1 & n1 & Ha & Hgo).
      apply Nat.eqb_eq, length_zero_iff_nil in Hlen. subst buf.
      exists d1, n1. split; [done|].
      intros rest. cbn [app]. rewrite copyBuffer_cons. cbn. apply Hgo.
    + destruct (Write w buf) as [w2 [n [e|]]] eqn:HW; [done|].
      destruct (n =? Z.of_nat (length buf)) eqn:Hn; [|done].
      destruct (IH w2 (sha512.write d buf)
                   (io.i64 (n0 + Z.of_nat (length buf))) Hpre Hw)
        as (d1 & n1 & Ha & Hgo).
      exists d1, n1. split.
      * intros m Hm. cbn [fmap list_fmap fst concat].
        rewrite app_assoc. apply Ha. by apply write_absorbed.
      * intros rest. cbn [app]. rewrite copyBuffer_cons. cbn zeta.
        rewrite Hlen, HW, Hn. apply Hgo.
Qed.

End CopyLoop.

Lemma bytesRead_app (taken r' : Reader) :
  bytesRead (taken ++ r') r' = concat taken.*1.
Proof.
  unfold bytesRead. rewrite length_app.
  replace (length taken + length r' - length r')%nat with (length taken) by lia.
  by rewrite take_app_length.
Qed.

(** ** [hex.EncodeToString] *)

Lemma digit_lower n : hex.isLowerHexDigit (hex.digit n) = true.
Proof.
  unfold hex.digit. generalize (Z.to_nat n). intros k.
  do 16 (destruct k as [|k]; [reflexivity|]). reflexivity.
Qed.

Lemma EncodeToString_lower src : hex.isLowerHex (hex.EncodeToString src) = true.
Proof.
  induction src as [|v src IH]; [done|].
  cbn [hex.EncodeToString hex.isLowerHex]. by rewrite !digit_lower, IH.
Qed.

Lemma EncodeToString_length src :
  String.length (hex.EncodeToString src) = (2 * length src)%nat.
Proof.
  induction src as [|v src IH]; [done|].
  cbn [hex.EncodeToString String.length length]. rewrite IH. lia.
Qed.

(** ** The size of the digest *)

Lemma blockOne_length hs p : length (sha512.blockOne hs p) = 8%nat.
Proof.
  unfold sha512.blockOne.
  by destruct (fold_left _ _ _) as [[[[[[[a b] c] d] e] f] g] h'].
Qed.

Lemma block_length hs p : length hs = 8%nat → length (sha512.block hs p) = 8%nat.
Proof.
  unfold sha512.block. generalize (length p / sha512.chunk)%nat.
  intros n. revert hs p. induction n as [|n IH]; intros hs p Hhs; [done|].
  cbn [sha512.blockLoop]. apply IH, blockOne_length.
Qed.

Lemma Sum512_length m : length (sha512.Sum512 m) = sha512.Size.
Proof.
  unfold sha512.Sum512.
  pose proof (block_length sha512.init (sha512.pad m) eq_refl) as Hlen.
  destruct (sha512.block _ _) as [|a [|b [|c [|d [|e [|f [|g [|h' [|]]]]]]]]];
    simplify_eq/=. done.
Qed.

(** ** [copyAndChecksum] *)

Lemma Sum_nil d m : sha512.absorbed d m → sha512.Sum d [] = sha512.Sum512 m.
Proof. intros Hd. unfold sha512.Sum. cbn [app]. by apply checkSum_absorbed. Qed.

(** A call that returns no error: the reads it made, [taken], end where the
    reader is left, the destination took each of them in full, and the
    string returned is the hex digest of their bytes. *)
Lemma copyAndChecksum_ok {W} `{Writer W} (w w' : W) (r r' : Reader) sum :
  copyAndChecksum w r = (w', r', (sum, None)) →
  ∃ taken,
    r = taken ++ r' ∧
    writeAll w taken.*1 = Some w' ∧
    sum = hex.EncodeToString (sha512.Sum512 (concat taken.*1)) ∧
    pushpackage.contentOf r = concat taken.*1.
Proof.
  unfold copyAndChecksum, io.Copy.
  destruct (io.copyBuffer _ r 0) as [[mw r1] [n [e|]]] eqn:Hcopy; [done|].
  intros [= <- <- <-].
  destruct (copyBuffer_ok _ _ _ _ _ _ _ [] Hcopy New_absorbed)
    as (taken & Hr & Hw & Ha & Hc).
  exists taken. repeat split; try done.
  by rewrite (Sum_nil _ _ Ha).
Qed.

Lemma writeAll_received (w w' : Dest) bufs :
  writeAll w bufs = Some w' → received w' = received w ++ concat bufs.
Proof.
  revert w. induction bufs as [|buf bufs IH]; intros w Hw; cbn in Hw.
  - simplify_eq. cbn. by rewrite app_nil_r.
  - empty_or_not buf Hlen.
    + by apply IH.
    + unfold Write, Dest_Writer in Hw.
      destruct (respond w (calls w) buf) as [n [e|]]; [done|].
      destruct (n =? Z.of_nat (length buf)) eqn:Hn; [|done].
      apply Z.eqb_eq in Hn. subst n. apply IH in Hw. rewrite Hw. cbn [received concat].
      by rewrite Nat2Z.id, firstn_all, app_assoc.
Qed.

Lemma empty_digest :
  hex.EncodeToString (sha512.Sum sha512.New []) =
  "cf83e1357eefb8bdf1542850d66d8007d620e4050b5715dc83f4a921d36ce9ce47d0d13c5d85f2b0ff8318d2877eec2f63b931bd47417a81a538327af927da3e".
Proof. vm_compute. reflexivity. Qed.

Lemma copyBuffer_empty {W} `{Writer W} (mw : io.multiWriter W sha512.digest) r n0 :
  Forall (λ c, c.1 = [] ∧ (c.2 = None ∨ c.2 = Some EOF)) r →
  ∃ r', io.copyBuffer mw r n0 = (mw, r', (n0, None)).
Proof.
  induction r as [|[buf er] r IH]; intros Hr.
  - by exists [].
  - apply Forall_cons in Hr as [[Hbuf Her] Hr]. cbn in Hbuf, Her. subst buf.
    cbn. destruct Her as [-> | ->]; [by apply IH|].
    exists r. by case_decide.
Qed.

(** C1: whenever [copyAndChecksum] returns without error, the string it
    returns is the SHA-512 digest of the bytes [S] it read from the source,
    [hex(Sum512(S))], where [Sum512] is the reference function; it has
    exactly 128 characters, all of them lowercase hex digits. *)
Theorem copyAndChecksum_digest {W} `{Writer W} (w w' : W) (r r' : Reader) sum :
  copyAndChecksum w r = (w', r', (sum, None)) →
  sum = hex.EncodeToString (sha512.Sum512 (bytesRead r r')) ∧
  String.length sum = 128%nat ∧
  hex.isLowerHex sum = true.
Proof.
  intros (taken & -> & _ & -> & _)%copyAndChecksum_ok.
  rewrite bytesRead_app. split; [done|].
  by rewrite EncodeToString_length, Sum512_length, EncodeToString_lower.
Qed.

(** C2: whenever [copyAndChecksum] returns without error, the destination
    has received, after what it held before, exactly the bytes read from the
    source, in order. *)
Theorem copyAndChecksum_copies (w w' : Dest) (r r' : Reader) sum :
  copyAndChecksum w r = (w', r', (sum, None)) →
  received w' = received w ++ bytesRead r r'.
Proof.
  intros (taken & -> & Hw & _ & _)%copyAndChecksum_ok.
  rewrite bytesRead_app. by apply writeAll_received.
Qed.

Lemma Write_accepting (w : Dest) buf :
  accepting w →
  Write w buf = (mkDest (received w ++ buf) (calls w ++ [buf]) (respond w),
                 (Z.of_nat (length buf), None)).
Proof.
  intros Hacc. unfold Write, Dest_Writer.
  by rewrite Hacc, Nat2Z.id, firstn_all.
Qed.

Lemma copyBuffer_accepting (w : Dest) (d : sha512.digest) r n0 mw' r' res :
  accepting w →
  io.copyBuffer (io.MultiWriter w d) r n0 = (mw', r', res) →
  ∃ taken, r = taken ++ r' ∧ writeAll w taken.*1 = Some (io.writer0 mw').
Proof.
  revert w d n0. induction r as [|[buf er] r IH]; intros w d n0 Hacc Hcopy.
  - cbn in Hcopy. simplify_eq. by exists [].
  - rewrite copyBuffer_cons in Hcopy. cbn zeta in Hcopy.
    empty_or_not buf Hlen.
    + destruct er as [e|].
      * simplify_eq. by exists [([], Some e)].
      * destruct (IH _ _ _ Hacc Hcopy) as (taken & -> & Hw).
        by exists (([], None) :: taken).
    + assert (Hbuf : buf ≠ []) by (by intros ->).
      pose proof (Write_accepting w buf Hacc) as HW.
      rewrite HW, Z.eqb_refl in Hcopy.
      destruct er as [e|].
      * simplify_eq. exists [(buf, Some e)].
        split; [done|]. cbn [fmap list_fmap fst].
        by rewrite (writeAll_cons _ _ _ _ Hbuf HW).
      * apply IH in Hcopy as (taken & -> & Hw); [|done].
        exists ((buf, None) :: taken).
        split; [done|]. cbn [fmap list_fmap fst].
        by rewrite (writeAll_cons _ _ _ _ Hbuf HW).
Qed.

(** On a destination that takes every write, the bytes read are received
    whether the call succeeds or a read fails. *)
Lemma copyAndChecksum_accepting (w w' : Dest) (r r' : Reader) res :
  accepting w →
  copyAndChecksum w r = (w', r', res) →
  received w' = received w ++ bytesRead r r'.
Proof.
  intros Hacc. unfold copyAndChecksum, io.Copy.
  destruct (io.copyBuffer _ r 0) as [[mw r1] [n err]] eqn:Hcopy.
  apply copyBuffer_accepting in Hcopy as (taken & -> & Hw); [|done].
  intros Hres. assert (w' = io.writer0 mw ∧ r' = r1) as [-> ->].
  { by destruct err; simplify_eq. }
  rewrite bytesRead_app. by apply writeAll_received.
Qed.

(** Whatever the outcome, the destination has received a prefix of the
    bytes read, after what it held before: never other bytes, never more. *)
Lemma copyBuffer_received (w : Dest) (d : sha512.digest) r n0 mw' r' res :
  io.copyBuffer (io.MultiWriter w d) r n0 = (mw', r', res) →
  ∃ taken k,
    r = taken ++ r' ∧
    received (io.writer0 mw') = received w ++ take k (concat taken.*1).
Proof.
  revert w d n0. induction r as [|[buf er] r IH]; intros w d n0 Hcopy.
  - cbn in Hcopy. simplify_eq. exists [], 0%nat.
    split; [done|]. cbn. by rewrite app_nil_r.
  - rewrite copyBuffer_cons in Hcopy. cbn zeta in Hcopy.
    empty_or_not buf Hlen.
    + destruct er as [e|].
      * simplify_eq. exists [([], Some e)], 0%nat.
        split; [done|]. cbn. by rewrite app_nil_r.
      * destruct (IH _ _ _ Hcopy) as (taken & k & -> & Hrec).
        by exists (([], None) :: taken), k.
    + unfold Write at 1, Dest_Writer in Hcopy.
      destruct (respond w (calls w) buf) as [nw ew].
      assert (Hstop : ∀ mw res1, (mw, r, res1) = (mw', r', res) →
                io.writer0 mw = mkDest (received w ++ take (Z.to_nat nw) buf)
                                       (calls w ++ [buf]) (respond w) →
                ∃ taken k, (buf, er) :: r = taken ++ r' ∧
                  received (io.writer0 mw') = received w ++ take k (concat taken.*1)).
      { intros mw res1 [= <- <- <-] Hmw. exists [(buf, er)], (Z.to_nat nw).
        split; [done|]. rewrite Hmw. cbn. by rewrite app_nil_r. }
      destruct ew as [e|]; [by eapply Hstop|].
      destruct (nw =? Z.of_nat (length buf)) eqn:Hnw; [|by eapply Hstop].
      destruct er as [e|]; [by eapply Hstop|].
      apply Z.eqb_eq in Hnw. subst nw.
      destruct (IH _ _ _ Hcopy) as (taken & k & -> & Hrec).
      exists ((buf, None) :: taken), (length buf + k)%nat. split; [done|].
      rewrite Hrec. cbn [received fmap list_fmap fst concat].
      by rewrite Nat2Z.id, firstn_all, take_app_add, app_assoc.
Qed.

Lemma copyAndChecksum_received (w w' : Dest) (r r' : Reader) res :
  copyAndChecksum w r = (w', r', res) →
  ∃ k, received w' = received w ++ take k (bytesRead r r').
Proof.
  unfold copyAndChecksum, io.Copy.
  destruct (io.copyBuffer _ r 0) as [[mw r1] [n err]] eqn:Hcopy.
  apply copyBuffer_received in Hcopy as (taken & k & -> & Hrec).
  intros Hres. assert (w' = io.writer0 mw ∧ r' = r1) as [-> ->].
  { by destruct err; simplify_eq. }
  exists k. by rewrite bytesRead_app.
Qed.

(** C3: a failure of the copy is returned, with no digest.  After reads
    [pre] that report no error and are written to the destination in full
    (none, or a partial read of the source):
    - a read that reports an error [e] other than [io.EOF], its bytes being
      written in full, makes the call return [e];
    - a write for which the destination returns an error [e] makes the call
      return [e];
    - a write that the destination cuts short without an error makes the
      call return [io.ErrShortWrite].
    In each case the string returned is empty. *)
Theorem copyAndChecksum_propagates {W} `{Writer W} (w : W) (pre rest : Reader) buf :
  Forall (λ c, c.2 = None) pre →
  (∀ e w', e ≠ EOF → writeAll w (pre.*1 ++ [buf]) = Some w' →
     copyAndChecksum w (pre ++ (buf, Some e) :: rest) = (w', rest, ("", Some e))) ∧
  (∀ er w1 w2 n e, buf ≠ [] → writeAll w pre.*1 = Some w1 →
     Write w1 buf = (w2, (n, Some e)) →
     copyAndChecksum w (pre ++ (buf, er) :: rest) = (w2, rest, ("", Some e))) ∧
  (∀ er w1 w2 n, buf ≠ [] → writeAll w pre.*1 = Some w1 →
     Write w1 buf = (w2, (n, None)) → n ≠ Z.of_nat (length buf) →
     copyAndChecksum w (pre ++ (buf, er) :: rest) = (w2, rest, ("", Some ErrShortWrite))).
Proof.
  intros Hpre. unfold copyAndChecksum, io.Copy. repeat split.
  - intros e w' He Hw. rewrite writeAll_app in Hw.
    destruct (writeAll w pre.*1) as [w1|] eqn:Hw1; [|done]. cbn in Hw.
    destruct (copyBuffer_prefix pre w sha512.New 0 w1 Hpre Hw1) as (d1 & n1 & _ & ->).
    rewrite copyBuffer_cons. cbn zeta.
    destruct (length buf =? 0)%nat.
    + simplify_eq. by case_decide.
    + destruct (Write w1 buf) as [w2 [n [e'|]]]; [done|].
      destruct (n =? Z.of_nat (length buf)); [|done].
      simplify_eq. by case_decide.
  - intros er w1 w2 n e Hbuf Hw1 HW.
    destruct (copyBuffer_prefix pre w sha512.New 0 w1 Hpre Hw1) as (d1 & n1 & _ & ->).
    rewrite copyBuffer_cons. cbn zeta.
    destruct (length buf =? 0)%nat eqn:Hlen.
    { by apply Nat.eqb_eq, length_zero_iff_nil in Hlen. }
    by rewrite HW.
  - intros er w1 w2 n Hbuf Hw1 HW Hn.
    destruct (copyBuffer_prefix pre w sha512.New 0 w1 Hpre Hw1) as (d1 & n1 & _ & ->).
    rewrite copyBuffer_cons. cbn zeta.
    destruct (length buf =? 0)%nat eqn:Hlen.
    { by apply Nat.eqb_eq, length_zero_iff_nil in Hlen. }
    rewrite HW. apply Z.eqb_neq in Hn. by rewrite Hn.
Qed.

(** C4: on an empty source, one whose reads return no bytes until [io.EOF],
    [copyAndChecksum] succeeds and returns the SHA-512 digest of the empty
    byte sequence; the destination is as it was, no [Write] having been
    made. *)
Theorem copyAndChecksum_empty {W} `{Writer W} (w : W) (r : Reader) :
  Forall (λ c, c.1 = [] ∧ (c.2 = None ∨ c.2 = Some EOF)) r →
  ∃ r',
    copyAndChecksum w r =
    (w, r',
     ("cf83e1357eefb8bdf1542850d66d8007d620e4050b5715dc83f4a921d36ce9ce47d0d13c5d85f2b0ff8318d2877eec2f63b931bd47417a81a538327af927da3e",
      None)).
Proof.
  intros Hr. unfold copyAndChecksum, io.Copy.
  destruct (copyBuffer_empty (io.MultiWriter w sha512.New) r 0 Hr) as [r' ->].
  exists r'. cbn [io.writer0 io.writer1]. by rewrite empty_digest.
Qed.

(** C9: whenever [copyAndChecksum] returns an error, the string it returns
    is empty. *)
Theorem copyAndChecksum_error_no_digest {W} `{Writer W} (w : W) (r : Reader) e :
  (copyAndChecksum w r).2.2 = Some e → (copyAndChecksum w r).2.1 = "".
Proof.
  unfold copyAndChecksum.
  by destruct (io.Copy _ r) as [[mw r1] [n [e'|]]].
Qed.

(** ** [APS.Map] *)

Section APSMap.

Import payload.

Context {Badge : Type} (Number : Badge → Z * bool).

Lemma lookup_if_insert_ne (c : bool) (k k' : string) (v : value)
      (m : gmap string value) :
  k' ≠ k → (if c then <[k' := v]> m else m) !! k = m !! k.
Proof. intros Hne. destruct c; [by rewrite lookup_insert_ne|done]. Qed.

(** [Map] returns a map with the single key ["aps"], and the map under it
    has under ["alert"] what [alertValue] says. *)
Lemma Map_alert (a : APS) :
  ∃ aps : gmap string value,
    Map Number a = {[ "aps" := VMap aps ]} ∧
    aps !! "alert" = alertValue (Alert_ a).
Proof.
  unfold Map. eexists. split; [reflexivity|].
  destruct (Number (Badge_ a)) as [n ok].
  rewrite !lookup_if_insert_ne by done.
  unfold alertValue.
  destruct (isZero (Alert_ a)); cbn [negb]; [done|].
  destruct (isSimple (Alert_ a)); by rewrite lookup_insert_eq.
Qed.

Lemma len_0 (s : string) : (len s =? 0)%nat = true ↔ s = "".
Proof.
  unfold len. rewrite Nat.eqb_eq. by destruct s.
Qed.

(** The alert is the bare Body when Body is set and the fields [isSimple]
    tests are empty, whatever SubtitleLocKey, SubtitleLocArgs and
    SafariAction hold. *)
Lemma alertValue_simple (a : Alert) :
  Body a ≠ "" →
  Title a = "" → Subtitle a = "" → LaunchImage a = "" →
  TitleLocKey a = "" → TitleLocArgs a = [] →
  LocKey a = "" → LocArgs a = [] → ActionLocKey a = "" →
  alertValue a = Some (VString (Body a)).
Proof.
  intros Hbody Ht Hs Hl Htk Hta Hk Hka Hak.
  unfold alertValue, isZero, isSimple.
  rewrite Ht, Hs, Hl, Htk, Hta, Hk, Hka, Hak. cbn.
  destruct (len (Body a) =? 0)%nat eqn:Hlen; [|done].
  by apply len_0 in Hlen.
Qed.

(** The alert is the whole struct when one of the fields [isSimple] tests
    is set. *)
Lemma alertValue_full (a : Alert) :
  Title a ≠ "" ∨ Subtitle a ≠ "" ∨ LaunchImage a ≠ "" ∨
  TitleLocKey a ≠ "" ∨ TitleLocArgs a ≠ [] ∨
  LocKey a ≠ "" ∨ LocArgs a ≠ [] ∨ ActionLocKey a ≠ "" →
  alertValue a = Some (VAlert a).
Proof.
  intros Hset. unfold alertValue, isZero.
  assert (isSimple a = false) as ->; [|by rewrite andb_false_r].
  unfold isSimple. apply not_true_is_false. intros Hall.
  repeat (apply andb_prop in Hall as [Hall ?]).
  repeat match goal with
  | Hx : (len _ =? 0)%nat = true |- _ => apply len_0 in Hx
  | Hx : (length _ =? 0)%nat = true |- _ =>
      apply Nat.eqb_eq, length_zero_iff_nil in Hx
  end.
  destruct Hset as [?|[?|[?|[?|[?|[?|[?|?]]]]]]]; done.
Qed.

(** There is no alert when no field of the Alert is set. *)
Lemma alertValue_zero (a : Alert) :
  a = mkAlert "" "" [] "" "" [] "" "" [] "" "" "" → alertValue a = None.
Proof. by intros ->. Qed.

End APSMap.

(** C10: [Map] on an alert with Body and SubtitleLocKey set.  [isSimple]
    does not test SubtitleLocKey (nor SubtitleLocArgs, nor SafariAction), so
    the alert is taken for a simple one and ["alert"] is the bare Body: the
    subtitle's localization key is not in the payload.  On an alert with
    only SafariAction set, [isZero] holds and there is no ["alert"] at
    all. *)
Theorem Map_alert_untested_fields :
  payload.Map payload.optionNumber payload.bodyAndSubtitleLocKey
    = {[ "aps" := payload.VMap {[ "alert" := payload.VString "Hello" ]} ]} ∧
  payload.Map payload.optionNumber payload.safariActionOnly
    = {[ "aps" := payload.VMap ∅ ]}.
Proof. split; vm_compute; reflexivity. Qed.

(** ** The push-package builder *)

Section Builder.

Import pushpackage.

Lemma findDuplicate_None seen paths :
  findDuplicate seen paths = None → NoDup paths ∧ ∀ p, p ∈ paths → p ∉ seen.
Proof.
  revert seen. induction paths as [|q paths IH]; intros seen Hfind.
  - split; [constructor | set_solver].
  - cbn in Hfind. case_decide as Hq; [done|].
    destruct (IH _ Hfind) as [Hnd Hfresh]. split.
    + constructor; [|done]. intros Hin. apply (Hfresh q Hin).
      apply elem_of_union_l. by apply elem_of_singleton.
    + intros p [->|Hin]%elem_of_cons; [done|].
      intros Hp. apply (Hfresh p Hin). by apply elem_of_union_r.
Qed.

Lemma findDuplicate_Some seen paths p :
  findDuplicate seen paths = Some p →
  ∃ j, paths !! j = Some p ∧
       (p ∈ seen ∨ ∃ i, (i < j)%nat ∧ paths !! i = Some p).
Proof.
  revert seen. induction paths as [|q paths IH]; intros seen Hfind; [done|].
  cbn in Hfind. case_decide as Hq.
  - simplify_eq. exists 0%nat. split; [done|]. by left.
  - destruct (IH _ Hfind) as (j & Hj & Hwhere). exists (S j). split; [done|].
    destruct Hwhere as [[->%elem_of_singleton|Hseen]%elem_of_union|(i & Hi & Hpi)].
    + right. exists 0%nat. split; [lia|done].
    + by left.
    + right. exists (S i). split; [lia|done].
Qed.

(** A file that is added leaves what the manifest had and appends its own
    path, which the manifest did not have, with the digest of its content. *)
Lemma addFile_Ok e b b' :
  addFile e b = Ok b' →
  state b = WritingFiles ∧ state b' = WritingFiles ∧
  (path e ∉ (manifest b).*1) ∧
  manifest b' = manifest b ++ [manifestEntry (fileKey e)].
Proof.
  unfold addFile. destruct (state b) eqn:Hst; try done.
  case_decide as Hin; [done|].
  destruct (copyAndChecksum _ (content e)) as [[w r'] [sum [err|]]] eqn:Hcopy; [done|].
  intros [= <-]. cbn [state manifest]. repeat split; try done.
  apply copyAndChecksum_ok in Hcopy as (taken & _ & _ & -> & Hc).
  unfold manifestEntry, fileKey. cbn [fst snd]. by rewrite Hc.
Qed.

Lemma addFiles_Ok files b b' :
  addFiles files b = Ok b' →
  manifest b' = manifest b ++ (manifestEntry ∘ fileKey <$> files).
Proof.
  revert b. induction files as [|e files IH]; intros b Hadd; cbn in Hadd.
  - simplify_eq. by rewrite app_nil_r.
  - destruct (addFile e b) as [b1|] eqn:He; [|done]. cbn in Hadd.
    apply addFile_Ok in He as (_ & _ & _ & Hm).
    rewrite (IH _ Hadd), Hm, <- app_assoc. done.
Qed.

Lemma buildManifest_Ok files dst m :
  buildManifest files dst = Ok m → m = manifestEntry <$> (fileKey <$> files).
Proof.
  unfold buildManifest. destruct (findDuplicate _ _); [done|].
  cbn. destruct (addFiles files _) as [b|] eqn:Hadd; [|done]. cbn.
  intros [= <-]. apply addFiles_Ok in Hadd. rewrite Hadd. cbn.
  by rewrite <- list_fmap_compose.
Qed.

(** C6: two builds of the manifest over the same set of (path, content)
    pairs, given in any two orders, yield the same (path, digest) pairs: the
    manifests are permutations of each other, and equal as sets of
    pairs. *)
Theorem buildManifest_order_independent files1 files2 dst1 dst2 m1 m2 :
  fileKey <$> files1 ≡ₚ fileKey <$> files2 →
  buildManifest files1 dst1 = Ok m1 →
  buildManifest files2 dst2 = Ok m2 →
  m1 ≡ₚ m2 ∧ (list_to_set m1 : gset (string * string)) = list_to_set m2.
Proof.
  intros Hperm ->%buildManifest_Ok ->%buildManifest_Ok.
  assert (Hm : manifestEntry <$> (fileKey <$> files1)
               ≡ₚ manifestEntry <$> (fileKey <$> files2)) by by rewrite Hperm.
  split; [done|]. apply set_eq. intros kv.
  by rewrite !elem_of_list_to_set, Hm.
Qed.

Context `{SigningScheme}.

(** C5: a build whose file entries include two with the same relative path
    fails with DuplicatePath for a path that occurs twice, before it leaves
    the state [Empty], and yields no archive.  And the step that adds a file
    rejects a path the manifest already has: the entry it has is not
    overwritten. *)
Theorem build_duplicate_path files (id : Identity) dst i j e1 e2 :
  i ≠ j → files !! i = Some e1 → files !! j = Some e2 → path e1 = path e2 →
  (∃ p i' j',
     (i' < j')%nat ∧
     (path <$> files) !! i' = Some p ∧ (path <$> files) !! j' = Some p ∧
     build files id dst = ([Empty], Err (DuplicatePath p))) ∧
  (∀ e b, state b = WritingFiles → path e ∈ (manifest b).*1 →
          addFile e b = Err (DuplicatePath (path e))).
Proof.
  intros Hij Hi Hj Hpath. split.
  - unfold build.
    destruct (findDuplicate ∅ (path <$> files)) as [p|] eqn:Hfind.
    + apply findDuplicate_Some in Hfind as (j' & Hj' & [Hseen|(i' & Hlt & Hi')]).
      { set_solver. }
      by exists p, i', j'.
    + apply findDuplicate_None in Hfind as [Hnd _].
      exfalso. apply Hij. apply (NoDup_lookup _ i j (path e1) Hnd).
      * by rewrite list_lookup_fmap, Hi.
      * by rewrite list_lookup_fmap, Hj, Hpath.
  - intros e b Hst Hin. unfold addFile. rewrite Hst. by case_decide.
Qed.

Lemma writeEntry_Ok name data b b' :
  writeEntry name data b = Ok b' →
  state b' = state b ∧ entries b' = entries b ++ [(name, data)] ∧
  manifest b' = manifest b ∧ manifestBytes b' = manifestBytes b.
Proof.
  unfold writeEntry. destruct (Write (out b) data) as [t [n [e|]]]; [done|].
  destruct (negb _); [done|]. by intros [= <-].
Qed.

(** A step that succeeds stays in [WritingFiles] or enters the next state. *)
Lemma step_state op b b' :
  step op b = Ok b' →
  (state b = WritingFiles ∧ state b' = WritingFiles) ∨
  next (state b) = Some (state b').
Proof.
  destruct op as [|e| |id|]; cbn [step].
  - unfold start. destruct (state b) eqn:Hst; try done. intros [= <-]. by right.
  - intros (Hst & Hst' & _)%addFile_Ok. by left.
  - unfold writeManifest. destruct (state b) eqn:Hst; try done.
    destruct (writeEntry _ _ b) as [b1|]; [|done]. cbn. intros [= <-]. by right.
  - unfold signManifest. destruct (state b) eqn:Hst; try done.
    destruct (sign id _); [|done].
    destruct (writeEntry _ _ b) as [b1|]; [|done]. cbn. intros [= <-]. by right.
  - unfold finalize. destruct (state b) eqn:Hst; try done.
    destruct (Write (out b) _) as [t [n [e|]]]; [done|].
    destruct (negb _); [done|]. intros [= <-]. by right.
Qed.

Lemma step_Finalized op b :
  state b = Finalized → step op b = Err (StateViolation Finalized).
Proof.
  intros Hst. destruct op; cbn [step];
    unfold start, addFile, writeManifest, signManifest, finalize; by rewrite Hst.
Qed.

Lemma upto_next st st' : next st = Some st' → upto st ++ [st'] = upto st'.
Proof. destruct st; intros [= <-]; done. Qed.

(** The states recorded by a run that starts from a builder in some state
    of the sequence are the sequence up to the state reached. *)
Lemma run_trace ops b trace r :
  run ops b (upto (state b)) = (trace, r) →
  match r with
  | Ok b' => trace = upto (state b')
  | Err _ => ∃ st, trace = upto st
  end.
Proof.
  revert b. induction ops as [|op ops IH]; intros b Hrun; cbn in Hrun.
  - by simplify_eq.
  - destruct (step op b) as [b1|f] eqn:Hstep.
    + apply (IH b1). rewrite <- Hrun. f_equal.
      case_decide as Heq; [by rewrite Heq|].
      destruct (step_state _ _ _ Hstep) as [[? ?]|Hnext]; [congruence|].
      by rewrite (upto_next _ _ Hnext).
    + simplify_eq. by exists (state b).
Qed.

Lemma run_last ops op b trace trace' b' :
  run (ops ++ [op]) b trace = (trace', Ok b') → ∃ b1, step op b1 = Ok b'.
Proof.
  revert b trace. induction ops as [|op1 ops IH]; intros b trace Hrun; cbn in Hrun.
  - destruct (step op b) as [b1|] eqn:Hstep; [|done]. simplify_eq. by exists b.
  - destruct (step op1 b); [|done]. by eapply IH.
Qed.

(** C7: the state machine of a build.  A step that succeeds keeps the state
    or enters the next one of Empty, WritingFiles, ManifestReady, Signed,
    Finalized, never a later one; Signed is entered from ManifestReady only;
    in Finalized every operation, a write among them, fails; and the states
    a build goes through are that sequence up to the state it reaches, which
    is Finalized when the build succeeds. *)
Theorem build_state_machine :
  (∀ op b b', step op b = Ok b' →
              state b' = state b ∨ next (state b) = Some (state b')) ∧
  (∀ op b b', step op b = Ok b' → state b' = Signed →
              state b = ManifestReady) ∧
  (∀ op b, state b = Finalized → step op b = Err (StateViolation Finalized)) ∧
  (∀ files id dst,
     ∃ st, (build files id dst).1 = upto st ∧
           ∀ pkg, (build files id dst).2 = Ok pkg → st = Finalized).
Proof.
  split; [|split; [|split; [exact step_Finalized|]]].
  - intros op b b' Hstep.
    destruct (step_state _ _ _ Hstep) as [[? ?]|Hnext]; [left; congruence|by right].
  - intros op b b' Hstep Hsigned.
    destruct (step_state _ _ _ Hstep) as [[? ?]|Hnext]; [congruence|].
    rewrite Hsigned in Hnext. by destruct (state b).
  - intros files id dst. unfold build.
    destruct (findDuplicate _ _) as [p|]; [by exists Empty|].
    destruct (run _ _ _) as [trace r] eqn:Hrun. cbn [fst snd].
    pose proof (run_trace _ (new dst) _ _ Hrun) as Htrace.
    destruct r as [b'|f]; [|destruct Htrace as [st ->]; by exists st].
    exists (state b'). split; [done|]. intros _ _.
    unfold pipeline in Hrun.
    change [WriteManifest; Sign id; Finalize]
      with ([WriteManifest; Sign id] ++ [Finalize]) in Hrun.
    rewrite app_assoc, app_comm_cons in Hrun.
    apply run_last in Hrun as [b1 Hfin]. cbn [step] in Hfin.
    unfold finalize in Hfin. destruct (state b1); try done.
    destruct (Write _ _) as [t [n [e|]]]; [done|].
    destruct (negb _); [done|]. by simplify_eq.
Qed.

Lemma writeEntry_accepting name data b :
  accepting (out b) →
  writeEntry name data b =
  Ok (mkBuilder (state b)
                (mkDest (received (out b) ++ data) (calls (out b) ++ [data])
                        (respond (out b)))
                (entries b ++ [(name, data)]) (manifest b) (manifestBytes b)).
Proof.
  intros Hacc. unfold writeEntry, Write, Dest_Writer.
  rewrite Hacc, Z.eqb_refl. cbn [negb]. by rewrite Nat2Z.id, firstn_all.
Qed.

(** C8: a build from no files with a usable identity, on an output target
    that takes every write, succeeds, having gone through every state up to
    Finalized; the archive has exactly two entries, [manifest.json] holding
    the empty JSON object and [signature] holding a signature of those bytes
    that verifies against them. *)
Theorem build_empty (id : Identity) (dst : Dest) :
  usable id → accepting dst →
  ∃ sig out,
    build [] id dst =
      (upto Finalized,
       Ok (mkPackage [("manifest.json", bytes_of_string "{}"); ("signature", sig)]
                     out)) ∧
    sign id (bytes_of_string "{}") = Some sig ∧
    verify id (bytes_of_string "{}") sig = true.
Proof.
  intros Hid Hacc.
  destruct (Hid (bytes_of_string "{}")) as [sig Hsig].
  exists sig. eexists. split; [|split; [done|by apply verify_sign]].
  unfold build, pipeline. cbn [fmap list_fmap findDuplicate map app run step].
  unfold start. cbn [new state setState out entries manifest manifestBytes].
  case_decide; [done|].
  cbn [run step]. unfold writeManifest. cbn [state].
  rewrite writeEntry_accepting by done. cbn.
  unfold signManifest. cbn [state manifestBytes].
  change (serialize []) with (bytes_of_string "{}"). rewrite Hsig.
  rewrite writeEntry_accepting by done. cbn.
  unfold finalize, Write, Dest_Writer. cbn [state out respond calls received].
  rewrite Hacc, Z.eqb_refl. cbn. reflexivity.
Qed.

End Builder.

(** ** The theorems at concrete inputs *)

Lemma copyAndChecksum_abc :
  copyAndChecksum Buffer example.abcReader
  = (example.abcBuffer, [], (example.abcDigest, None)).
Proof. vm_compute. reflexivity. Qed.

(** [copyAndChecksum_digest] on a source that delivers [abc] in two reads. *)
Lemma copyAndChecksum_digest_witness :
  copyAndChecksum Buffer example.abcReader
    = (example.abcBuffer, [], (example.abcDigest, None)) ∧
  example.abcDigest
    = hex.EncodeToString (sha512.Sum512 (bytesRead example.abcReader [])) ∧
  String.length example.abcDigest = 128%nat ∧
  hex.isLowerHex example.abcDigest = true.
Proof.
  split; [exact copyAndChecksum_abc|].
  exact (copyAndChecksum_digest _ _ _ _ _ copyAndChecksum_abc).
Defined.

(** [copyAndChecksum_copies] on the same source. *)
Lemma copyAndChecksum_copies_witness :
  copyAndChecksum Buffer example.abcReader
    = (example.abcBuffer, [], (example.abcDigest, None)) ∧
  received example.abcBuffer
    = received Buffer ++ bytesRead example.abcReader [].
Proof.
  split; [exact copyAndChecksum_abc|].
  exact (copyAndChecksum_copies _ _ _ _ _ copyAndChecksum_abc).
Defined.

(** [copyAndChecksum_propagates]: a read that fails after [a] was read, a
    disk that is full after [ab] was written, and a destination that takes
    nothing. *)
Lemma copyAndChecksum_propagates_witness :
  copyAndChecksum Buffer
      ([(bytes_of_string "a", None)]
       ++ (bytes_of_string "bc", Some example.connectionReset)
       :: [(bytes_of_string "d", None)])
    = (example.abcBuffer, [(bytes_of_string "d", None)],
       ("", Some example.connectionReset)) ∧
  copyAndChecksum (Limited 2 example.noSpace)
      ([(bytes_of_string "ab", None)]
       ++ (bytes_of_string "cd", Some EOF) :: [])
    = (example.failedDisk, [], ("", Some example.noSpace)) ∧
  copyAndChecksum example.Stalled ([] ++ (bytes_of_string "a", None) :: [])
    = (example.stalledAfter (bytes_of_string "a"), [], ("", Some ErrShortWrite)).
Proof.
  split; [|split].
  - apply (proj1 (copyAndChecksum_propagates Buffer [(bytes_of_string "a", None)]
                    [(bytes_of_string "d", None)] (bytes_of_string "bc")
                    ltac:(repeat constructor))).
    + discriminate.
    + vm_compute. reflexivity.
  - apply (proj1 (proj2 (copyAndChecksum_propagates (Limited 2 example.noSpace)
                    [(bytes_of_string "ab", None)] [] (bytes_of_string "cd")
                    ltac:(repeat constructor)))) with (w1 := example.fullDisk) (n := 0).
    + discriminate.
    + vm_compute. reflexivity.
    + vm_compute. reflexivity.
  - apply (proj2 (proj2 (copyAndChecksum_propagates example.Stalled
                    [] [] (bytes_of_string "a")
                    ltac:(constructor)))) with (w1 := example.Stalled) (n := 0).
    + discriminate.
    + reflexivity.
    + vm_compute. reflexivity.
    + discriminate.
Defined.

(** [copyAndChecksum_empty] on a source with nothing to read and a disk with
    no room. *)
Lemma copyAndChecksum_empty_witness :
  Forall (λ c, c.1 = [] ∧ (c.2 = None ∨ c.2 = Some EOF)) example.emptyReader ∧
  ∃ r',
    copyAndChecksum (Limited 0 example.noSpace) example.emptyReader =
    (Limited 0 example.noSpace, r',
     ("cf83e1357eefb8bdf1542850d66d8007d620e4050b5715dc83f4a921d36ce9ce47d0d13c5d85f2b0ff8318d2877eec2f63b931bd47417a81a538327af927da3e",
      None)).
Proof.
  assert (Hempty : Forall (λ c : list byte * option error,
                             c.1 = [] ∧ (c.2 = None ∨ c.2 = Some EOF))
                          example.emptyReader).
  { constructor; [split; [reflexivity|by left]|].
    constructor; [split; [reflexivity|by right]|]. constructor. }
  split; [exact Hempty|].
  exact (copyAndChecksum_empty (Limited 0 example.noSpace) _ Hempty).
Defined.

(** [copyAndChecksum_error_no_digest] on a disk with no room. *)
Lemma copyAndChecksum_error_no_digest_witness :
  (copyAndChecksum (Limited 0 example.noSpace) example.abcReader).2.2
    = Some example.noSpace ∧
  (copyAndChecksum (Limited 0 example.noSpace) example.abcReader).2.1 = "".
Proof.
  assert (Herr : (copyAndChecksum (Limited 0 example.noSpace) example.abcReader).2.2
                 = Some example.noSpace) by (vm_compute; reflexivity).
  split; [exact Herr|].
  exact (copyAndChecksum_error_no_digest _ _ _ Herr).
Defined.

(** [build_duplicate_path]: two files named [icon.png]; and a file added to
    a builder whose manifest has its path. *)
Lemma build_duplicate_path_witness :
  (∃ p i' j',
     (i' < j')%nat ∧
     (pushpackage.path <$> [example.iconX; example.iconY]) !! i' = Some p ∧
     (pushpackage.path <$> [example.iconX; example.iconY]) !! j' = Some p ∧
     pushpackage.build (H := pushpackage.macScheme)
       [example.iconX; example.iconY] example.key Buffer
     = ([pushpackage.Empty], pushpackage.Err (pushpackage.DuplicatePath p))) ∧
  pushpackage.addFile example.iconY
    (pushpackage.mkBuilder pushpackage.WritingFiles Buffer []
                           [("icon.png", example.abcDigest)] [])
  = pushpackage.Err (pushpackage.DuplicatePath "icon.png").
Proof.
  pose proof (build_duplicate_path (H := pushpackage.macScheme)
                [example.iconX; example.iconY] example.key Buffer
                0%nat 1%nat example.iconX example.iconY
                ltac:(discriminate) eq_refl eq_refl eq_refl) as [Hbuild Hadd].
  split; [exact Hbuild|].
  apply (Hadd example.iconY); [reflexivity|].
  apply list_elem_of_here.
Defined.

Lemma buildManifest_icons :
  pushpackage.buildManifest [example.iconX; example.icon2x] Buffer
    = pushpackage.Ok (pushpackage.manifestEntry
                        <$> (pushpackage.fileKey <$> [example.iconX; example.icon2x])) ∧
  pushpackage.buildManifest [example.icon2x'; example.iconX] Buffer
    = pushpackage.Ok (pushpackage.manifestEntry
                        <$> (pushpackage.fileKey <$> [example.icon2x'; example.iconX])).
Proof. split; vm_compute; reflexivity. Qed.

(** [buildManifest_order_independent]: two files in the two orders, one of
    them read in one piece or in two. *)
Lemma buildManifest_order_independent_witness :
  (pushpackage.manifestEntry
     <$> (pushpackage.fileKey <$> [example.iconX; example.icon2x]))
  ≡ₚ (pushpackage.manifestEntry
        <$> (pushpackage.fileKey <$> [example.icon2x'; example.iconX])) ∧
  (list_to_set (pushpackage.manifestEntry
     <$> (pushpackage.fileKey <$> [example.iconX; example.icon2x]))
     : gset (string * string))
  = list_to_set (pushpackage.manifestEntry
        <$> (pushpackage.fileKey <$> [example.icon2x'; example.iconX])).
Proof.
  apply (buildManifest_order_independent
           [example.iconX; example.icon2x] [example.icon2x'; example.iconX]
           Buffer Buffer).
  - apply Permutation_swap.
  - exact (proj1 buildManifest_icons).
  - exact (proj2 buildManifest_icons).
Defined.

Lemma sign_ready :
  pushpackage.step (H := pushpackage.macScheme)
    (pushpackage.Sign (H := pushpackage.macScheme) example.key) example.readyBuilder
  = pushpackage.Ok
      (pushpackage.mkBuilder pushpackage.Signed
         (mkDest (sha512.Sum512 (example.key ++ example.emptyManifest))
                 [sha512.Sum512 (example.key ++ example.emptyManifest)]
                 (respond Buffer))
         [("manifest.json", example.emptyManifest);
          ("signature", sha512.Sum512 (example.key ++ example.emptyManifest))]
         [] example.emptyManifest).
Proof. vm_compute. reflexivity. Qed.

(** [build_state_machine]: the start of a build; the signing step on a
    builder whose manifest is ready; a file added after finalization; a
    build from no files. *)
Lemma build_state_machine_witness :
  (pushpackage.state (pushpackage.setState pushpackage.WritingFiles (pushpackage.new Buffer))
     = pushpackage.state (pushpackage.new Buffer) ∨
   pushpackage.next (pushpackage.state (pushpackage.new Buffer))
     = Some (pushpackage.state
               (pushpackage.setState pushpackage.WritingFiles (pushpackage.new Buffer)))) ∧
  pushpackage.state example.readyBuilder = pushpackage.ManifestReady ∧
  pushpackage.step (H := pushpackage.macScheme)
    (pushpackage.AddFile example.iconX) example.finalBuilder
  = pushpackage.Err (pushpackage.StateViolation pushpackage.Finalized) ∧
  ∃ st,
    (pushpackage.build (H := pushpackage.macScheme) [] example.key Buffer).1
      = pushpackage.upto st ∧
    ∀ pkg,
      (pushpackage.build (H := pushpackage.macScheme) [] example.key Buffer).2
        = pushpackage.Ok pkg →
      st = pushpackage.Finalized.
Proof.
  destruct (build_state_machine (H := pushpackage.macScheme))
    as (Hnext & Hsigned & Hfinal & Hbuild).
  split; [|split; [|split]].
  - apply (Hnext pushpackage.Start). reflexivity.
  - eapply (Hsigned (pushpackage.Sign (H := pushpackage.macScheme) example.key));
      [exact sign_ready | reflexivity].
  - apply Hfinal. reflexivity.
  - apply Hbuild.
Defined.

(** [build_empty] with a usable key, on a buffer. *)
Lemma build_empty_witness :
  ∃ sig out,
    pushpackage.build (H := pushpackage.macScheme) [] example.key Buffer =
      (pushpackage.upto pushpackage.Finalized,
       pushpackage.Ok
         (pushpackage.mkPackage
            [("manifest.json", bytes_of_string "{}"); ("signature", sig)] out)) ∧
    pushpackage.sign (SigningScheme := pushpackage.macScheme)
      example.key (bytes_of_string "{}") = Some sig ∧
    pushpackage.verify (SigningScheme := pushpackage.macScheme)
      example.key (bytes_of_string "{}") sig = true.
Proof.
  apply (build_empty (H := pushpackage.macScheme) example.key Buffer).
  - intros m. by eexists.
  - intros hist p. reflexivity.
Defined.

(** * Further properties of the code *)

(** ** [APS.Map]: one key per field that is set *)

Section MapFields.

Import payload.

Context {Badge : Type} (Number : Badge → Z * bool).

Implicit Types (a : APS (Badge := Badge)).

Lemma apsOf_Map a :
  Map Number a = {[ "aps" := VMap (apsOf (Map Number a)) ]}.
Proof.
  destruct (Map_alert Number a) as (aps & Hmap & _).
  rewrite Hmap at 2. unfold apsOf. by rewrite lookup_singleton_eq.
Qed.

Lemma lookup_if_insert_eq (c : bool) (k : string) (v : value)
      (m : gmap string value) :
  (if c then <[k := v]> m else m) !! k = if c then Some v else m !! k.
Proof. destruct c; [by rewrite lookup_insert_eq|done]. Qed.

(** Looking a key up in the dictionary [Map] builds: the later insertions
    are for other keys, and so are the earlier ones. *)
Ltac lookup_field :=
  unfold apsOf, Map; rewrite lookup_singleton_eq;
  try destruct (Number _) as [? []];
  cbn [fst snd negb];
  rewrite ?lookup_if_insert_ne by done;
  rewrite ?lookup_insert_ne by done;
  try rewrite lookup_if_insert_eq;
  try rewrite lookup_insert_eq;
  rewrite ?lookup_if_insert_ne by done;
  rewrite ?lookup_insert_ne by done;
  repeat match goal with
         | |- context [isZero ?x] => destruct (isZero x)
         | |- context [isSimple ?x] => destruct (isSimple x)
         end;
  cbn [negb];
  rewrite ?lookup_insert_ne by done;
  rewrite ?lookup_empty.

(** What the dictionary holds under each of its keys. *)
Lemma Map_lookup a :
  let aps := apsOf (Map Number a) in
  aps !! "alert" = alertValue (Alert_ a) ∧
  aps !! "badge" = (if (Number (Badge_ a)).2
                    then Some (VUint (Number (Badge_ a)).1) else None) ∧
  aps !! "sound" = (if nonempty (SoundName (Sound_ a))
                    then Some (VSound (Sound_ a)) else None) ∧
  aps !! "content-available" = (if ContentAvailable a then Some (VInt 1) else None) ∧
  aps !! "category" = (if nonempty (Category a)
                       then Some (VString (Category a)) else None) ∧
  aps !! "mutable-content" = (if MutableContent a then Some (VInt 1) else None) ∧
  aps !! "thread-id" = (if nonempty (ThreadID a)
                        then Some (VString (ThreadID a)) else None) ∧
  aps !! "target-content-id" = (if nonempty (TargetContentID a)
                                then Some (VString (TargetContentID a)) else None) ∧
  aps !! "url-args" = (if (0 <? length (SafariURLArgs a))%nat
                       then Some (VStrings (SafariURLArgs a)) else None) ∧
  aps !! "interruption-level" = (if nonempty (InterruptionLevel a)
                                 then Some (VInterruptionLevel (InterruptionLevel a))
                                 else None) ∧
  aps !! "relevance-score" = (if SFltb (S754_zero false) (RelevanceScore a)
                              then Some (VFloat32 (RelevanceScore a)) else None).
Proof.
  cbn zeta. split.
  { destruct (Map_alert Number a) as (aps & Hmap & Halert).
    unfold apsOf. by rewrite Hmap, lookup_singleton_eq. }
  repeat split; lookup_field; reflexivity.
Qed.

Lemma nonempty_true (s : string) : nonempty s = true ↔ s ≠ "".
Proof.
  unfold nonempty. rewrite negb_true_iff. split.
  - intros Hne ->. by rewrite String.eqb_refl in Hne.
  - intros Hne. by apply String.eqb_neq.
Qed.

Lemma elem_of_dom_if {A} (c : bool) (v : A) (m : gmap string A) k :
  m !! k = (if c then Some v else None) → k ∈ dom m ↔ c = true.
Proof.
  intros Hk. rewrite elem_of_dom, Hk. destruct c; split; try done.
Qed.

Lemma Map_lookup_other a k :
  k ∉ apsKeys → apsOf (Map Number a) !! k = None.
Proof.
  unfold apsKeys. rewrite !not_elem_of_cons. intros Hk.
  destruct Hk as (? & ? & ? & ? & ? & ? & ? & ? & ? & ? & ? & _).
  unfold apsOf, Map. rewrite lookup_singleton_eq.
  destruct (Number _) as [? []];
    rewrite ?lookup_if_insert_ne by congruence;
    rewrite ?lookup_insert_ne by congruence;
    destruct (isZero _), (isSimple _); cbn [negb];
    rewrite ?lookup_insert_ne by congruence; apply lookup_empty.
Qed.

(** The map [Map] returns has the single key ["aps"], and the value under
    it is a dictionary. *)
Lemma Map_only_aps a :
  dom (Map Number a) = {[ "aps" ]} ∧
  Map Number a !! "aps" = Some (VMap (apsOf (Map Number a))).
Proof.
  destruct (Map_alert Number a) as (aps & Hmap & _).
  unfold apsOf. rewrite Hmap, dom_singleton_L. by rewrite !lookup_singleton_eq.
Qed.

(** X1: the dictionary has a key for a field exactly when the field is set:
    an alert that is not zero, a badge that has a number, a sound with a
    name, a flag that is true, a string or a list that is not empty, a
    relevance score above zero.  It has no other key. *)
Theorem Map_keys a :
  ("alert" ∈ dom (apsOf (Map Number a)) ↔ isZero (Alert_ a) = false) ∧
  ("badge" ∈ dom (apsOf (Map Number a)) ↔ (Number (Badge_ a)).2 = true) ∧
  ("sound" ∈ dom (apsOf (Map Number a)) ↔ SoundName (Sound_ a) ≠ "") ∧
  ("content-available" ∈ dom (apsOf (Map Number a)) ↔ ContentAvailable a = true) ∧
  ("category" ∈ dom (apsOf (Map Number a)) ↔ Category a ≠ "") ∧
  ("mutable-content" ∈ dom (apsOf (Map Number a)) ↔ MutableContent a = true) ∧
  ("thread-id" ∈ dom (apsOf (Map Number a)) ↔ ThreadID a ≠ "") ∧
  ("target-content-id" ∈ dom (apsOf (Map Number a)) ↔ TargetContentID a ≠ "") ∧
  ("url-args" ∈ dom (apsOf (Map Number a)) ↔ SafariURLArgs a ≠ []) ∧
  ("interruption-level" ∈ dom (apsOf (Map Number a)) ↔ InterruptionLevel a ≠ "") ∧
  ("relevance-score" ∈ dom (apsOf (Map Number a))
     ↔ SFltb (S754_zero false) (RelevanceScore a) = true) ∧
  (∀ k, k ∈ dom (apsOf (Map Number a)) → k ∈ apsKeys).
Proof.
  destruct (Map_lookup a)
    as (Hal & Hba & Hso & Hca & Hcat & Hmc & Hth & Htc & Hur & Hil & Hrs).
  split_and!.
  - rewrite elem_of_dom, Hal. unfold alertValue.
    destruct (isZero (Alert_ a)); split; try done.
    intros _. destruct (isSimple (Alert_ a)); by eexists.
  - by apply (elem_of_dom_if _ _ _ _ Hba).
  - etrans; [apply (elem_of_dom_if _ _ _ _ Hso)|apply nonempty_true].
  - by apply (elem_of_dom_if _ _ _ _ Hca).
  - etrans; [apply (elem_of_dom_if _ _ _ _ Hcat)|apply nonempty_true].
  - by apply (elem_of_dom_if _ _ _ _ Hmc).
  - etrans; [apply (elem_of_dom_if _ _ _ _ Hth)|apply nonempty_true].
  - etrans; [apply (elem_of_dom_if _ _ _ _ Htc)|apply nonempty_true].
  - etrans; [apply (elem_of_dom_if _ _ _ _ Hur)|]. rewrite Nat.ltb_lt.
    destruct (SafariURLArgs a); cbn; split; try done; lia.
  - etrans; [apply (elem_of_dom_if _ _ _ _ Hil)|apply nonempty_true].
  - by apply (elem_of_dom_if _ _ _ _ Hrs).
  - intros k Hk. destruct (decide (k ∈ apsKeys)) as [|Hout]; [done|].
    apply elem_of_dom in Hk as [v Hv].
    by rewrite (Map_lookup_other a k Hout) in Hv.
Qed.

(** X2: the value under a key is the field itself: the number of the badge,
    the whole Sound struct, 1 for the two flags, the string or the list as
    it is, the score; under ["alert"] the Body, which is then not empty, or
    the whole Alert struct. *)
Theorem Map_values a k v :
  apsOf (Map Number a) !! k = Some v →
  (k = "alert" ∧ (v = VString (Body (Alert_ a)) ∧ Body (Alert_ a) ≠ ""
                  ∨ v = VAlert (Alert_ a) ∧ isSimple (Alert_ a) = false)) ∨
  (k = "badge" ∧ v = VUint (Number (Badge_ a)).1) ∨
  (k = "sound" ∧ v = VSound (Sound_ a)) ∨
  (k = "content-available" ∧ v = VInt 1) ∨
  (k = "category" ∧ v = VString (Category a)) ∨
  (k = "mutable-content" ∧ v = VInt 1) ∨
  (k = "thread-id" ∧ v = VString (ThreadID a)) ∨
  (k = "target-content-id" ∧ v = VString (TargetContentID a)) ∨
  (k = "url-args" ∧ v = VStrings (SafariURLArgs a)) ∨
  (k = "interruption-level" ∧ v = VInterruptionLevel (InterruptionLevel a)) ∨
  (k = "relevance-score" ∧ v = VFloat32 (RelevanceScore a)).
Proof.
  intros Hv.
  destruct (Map_lookup a)
    as (Hal & Hba & Hso & Hca & Hcat & Hmc & Hth & Htc & Hur & Hil & Hrs).
  destruct (decide (k ∈ apsKeys)) as [Hin|Hout].
  2:{ by rewrite (Map_lookup_other a k Hout) in Hv. }
  unfold apsKeys in Hin. rewrite !elem_of_cons, elem_of_nil in Hin.
  destruct Hin as [->|[->|[->|[->|[->|[->|[->|[->|[->|[->|[->|[]]]]]]]]]]]].
  - left. split; [done|]. rewrite Hal in Hv. unfold alertValue, isZero in Hv.
    destruct (len (Body (Alert_ a)) =? 0)%nat eqn:Hbody;
      destruct (isSimple (Alert_ a)); simplify_eq/=; [by right| |by right].
    left. split; [done|]. intros Hb. by rewrite Hb in Hbody.
  - right; left. rewrite Hba in Hv. destruct (Number _).2; by simplify_eq.
  - do 2 right; left. rewrite Hso in Hv. destruct (nonempty _); by simplify_eq.
  - do 3 right; left. rewrite Hca in Hv. destruct (ContentAvailable a); by simplify_eq.
  - do 4 right; left. rewrite Hcat in Hv. destruct (nonempty _); by simplify_eq.
  - do 5 right; left. rewrite Hmc in Hv. destruct (MutableContent a); by simplify_eq.
  - do 6 right; left. rewrite Hth in Hv. destruct (nonempty _); by simplify_eq.
  - do 7 right; left. rewrite Htc in Hv. destruct (nonempty _); by simplify_eq.
  - do 8 right; left. rewrite Hur in Hv. destruct (_ <? _)%nat; by simplify_eq.
  - do 9 right; left. rewrite Hil in Hv. destruct (nonempty _); by simplify_eq.
  - do 10 right. rewrite Hrs in Hv. destruct (SFltb _ _); by simplify_eq.
Qed.

(** X3: a payload with a Body and nothing else, its badge having no number,
    maps to [{"aps": {"alert": Body}}]. *)
Theorem Map_body_only (body : string) (b : Badge) :
  body ≠ "" → (Number b).2 = false →
  Map Number
      (mkAPS (mkAlert "" "" [] "" "" [] body "" [] "" "" "") b
             (mkSound "" 0 (S754_zero false)) "" "" false false "" [] ""
             (S754_zero false))
  = {[ "aps" := VMap {[ "alert" := VString body ]} ]}.
Proof.
  intros Hbody Hbadge. unfold Map. cbn [Alert_ Badge_].
  destruct (Number b) as [n ok]. cbn in Hbadge. subst ok.
  destruct body as [|c body]; [done|]. cbn. by rewrite insert_empty.
Qed.

End MapFields.

(** ** [APS.Validate] and [APS.Map] *)

Section ValidateMap.

Import payload.

Context {Badge : Type} `{EqDecision Badge}.
Context (Number : Badge → Z * bool) (Preserve : Badge) (ErrIncomplete : error).

Implicit Types (a : APS (Badge := Badge)).

(** X4: a payload that [Validate] accepts does not map to an empty
    dictionary: it has an ["alert"] or a ["badge"], provided its badge, when
    it is not [badge.Preserve], has a number. *)
Theorem Validate_ok_Map a :
  Validate Preserve ErrIncomplete (Some a) = None →
  (Badge_ a ≠ Preserve → (Number (Badge_ a)).2 = true) →
  "alert" ∈ dom (apsOf (Map Number a)) ∨ "badge" ∈ dom (apsOf (Map Number a)).
Proof.
  unfold Validate. intros Hvalid Hbadge.
  destruct (Map_lookup Number a) as (Hal & Hba & _).
  destruct (len (Body (Alert_ a)) =? 0)%nat eqn:Hbody; cbn [andb] in Hvalid.
  - right. case_bool_decide as Hp; [done|].
    rewrite elem_of_dom, Hba, (Hbadge Hp). by eexists.
  - left. rewrite elem_of_dom, Hal. unfold alertValue, isZero.
    rewrite Hbody. cbn [andb]. destruct (isSimple (Alert_ a)); by eexists.
Qed.

(** X5: the only error of [Validate] is [ErrIncomplete].  A payload it
    rejects has no Body and, [badge.Preserve] having no number, no
    ["badge"]; its ["alert"], if it has one, is never a bare string.  So a
    payload with a title and no body is rejected although [Map] gives it an
    alert. *)
Theorem Validate_incomplete a e :
  (Number Preserve).2 = false →
  Validate Preserve ErrIncomplete (Some a) = Some e →
  e = ErrIncomplete ∧
  Body (Alert_ a) = "" ∧
  ("badge" ∉ dom (apsOf (Map Number a))) ∧
  ∀ s, apsOf (Map Number a) !! "alert" ≠ Some (VString s).
Proof.
  unfold Validate. intros Hpreserve Hinvalid.
  destruct (Map_lookup Number a) as (Hal & Hba & _).
  destruct (len (Body (Alert_ a)) =? 0)%nat eqn:Hbody; [|done].
  case_bool_decide as Hp; [|done]. cbn in Hinvalid. injection Hinvalid as <-.
  apply len_0 in Hbody. split_and!; [done|done| |].
  - rewrite elem_of_dom, Hba, Hp, Hpreserve. by intros [? ?].
  - intros s. rewrite Hal. unfold alertValue, isZero.
    rewrite Hbody. cbn. by destruct (isSimple (Alert_ a)).
Qed.

End ValidateMap.

(** ** [copyAndChecksum]: what it reads, what it writes, what it returns *)

Section CopyMore.

Context {W : Type} `{Writer W}.

Implicit Types (w : W) (d : sha512.digest) (r : Reader).

(** The reads a copy makes: all but the last report no error. *)
Lemma copyBuffer_taken r w d n0 mw' r' res :
  io.copyBuffer (io.MultiWriter w d) r n0 = (mw', r', res) →
  ∃ taken,
    r = taken ++ r' ∧
    Forall (λ c, c.2 = None) (take (length taken - 1) taken).
Proof.
  revert w d n0. induction r as [|[buf er] r IH]; intros w d n0 Hcopy.
  - cbn in Hcopy. simplify_eq. by exists [].
  - rewrite copyBuffer_cons in Hcopy. cbn zeta in Hcopy.
    assert (Hstop : ∀ mw res1, (mw, r, res1) = (mw', r', res) →
              ∃ taken, (buf, er) :: r = taken ++ r' ∧
                Forall (λ c, c.2 = None) (take (length taken - 1) taken)).
    { intros mw res1 [= <- <- <-]. exists [(buf, er)]. split; [done|]. constructor. }
    assert (Hgo : ∀ w1 d1 n1, er = None →
              io.copyBuffer (io.MultiWriter w1 d1) r n1 = (mw', r', res) →
              ∃ taken, (buf, er) :: r = taken ++ r' ∧
                Forall (λ c, c.2 = None) (take (length taken - 1) taken)).
    { intros w1 d1 n1 -> Hrest.
      destruct (IH _ _ _ Hrest) as (taken & -> & Hnil).
      exists ((buf, None) :: taken). split; [done|].
      destruct taken as [|c taken]; [constructor|].
      cbn [length] in *. rewrite Nat.sub_succ, Nat.sub_0_r in *.
      cbn [take]. by constructor. }
    destruct (length buf =? 0)%nat.
    + destruct er as [e|]; [by eapply Hstop|by eapply Hgo].
    + destruct (Write w buf) as [w1 [nw [e|]]]; [by eapply Hstop|].
      destruct (nw =? Z.of_nat (length buf)); [|by eapply Hstop].
      destruct er as [e|]; [by eapply Hstop|by eapply Hgo].
Qed.

(** X6: [copyAndChecksum] reads on only while the reads report no error:
    of the reads it made, [taken], every one but the last returned a [nil]
    error, and the reader is left right after the last. *)
Theorem copyAndChecksum_stops_reading w r :
  ∃ taken,
    r = taken ++ (copyAndChecksum w r).1.2 ∧
    Forall (λ c, c.2 = None) (take (length taken - 1) taken).
Proof.
  unfold copyAndChecksum, io.Copy.
  destruct (io.copyBuffer _ r 0) as [[mw r1] [n err]] eqn:Hcopy.
  apply copyBuffer_taken in Hcopy as (taken & -> & Hnil).
  exists taken. by destruct err.
Qed.

(** X7: the digest depends on the content only, not on how the source
    delivers it nor on the destination: two calls that succeed on sources
    with the same content return the same string. *)
Theorem copyAndChecksum_same_content {W2} `{Writer W2}
        w w' (v v' : W2) r r' (r2 r2' : Reader) (sum sum2 : string) :
  copyAndChecksum w r = (w', r', (sum, None)) →
  copyAndChecksum v r2 = (v', r2', (sum2, None)) →
  pushpackage.contentOf r = pushpackage.contentOf r2 →
  sum = sum2.
Proof.
  intros (taken & _ & _ & -> & Hc)%copyAndChecksum_ok.
  intros (taken2 & _ & _ & -> & Hc2)%copyAndChecksum_ok.
  intros Hsame. by rewrite <- Hc, <- Hc2, Hsame.
Qed.

(** X8: for a source of less than [2^61] bytes, the string a successful
    call returns is the hex form of the FIPS 180-4 digest, whose length
    field has all 128 bits. *)
Theorem copyAndChecksum_fips w r w' r' sum :
  copyAndChecksum w r = (w', r', (sum, None)) →
  Z.of_nat (length (bytesRead r r')) < 2 ^ 61 →
  sum = hex.EncodeToString (sha512.fips (bytesRead r r')).
Proof.
  intros (taken & -> & _ & -> & _)%copyAndChecksum_ok.
  rewrite bytesRead_app. intros Hlen. by rewrite Sum512_fips.
Qed.

End CopyMore.

Section CopyDest.

Implicit Types (w : Dest) (d : sha512.digest) (r : Reader).

(** X9: on a destination that takes every write, all the bytes read are
    received whatever the source does: the bytes a read returns together
    with an error are written before the error is returned. *)
Theorem copyAndChecksum_all_received w r :
  accepting w →
  received (copyAndChecksum w r).1.1
  = received w ++ bytesRead r (copyAndChecksum w r).1.2.
Proof.
  intros Hacc.
  destruct (copyAndChecksum w r) as [[w' r'] res] eqn:Hcall.
  by apply (copyAndChecksum_accepting _ _ _ _ _ Hacc Hcall).
Qed.

(** X10: whatever the outcome, what the destination held is kept and what
    it receives after it is a prefix of the bytes read: no byte that was not
    read, none out of order, none twice. *)
Theorem copyAndChecksum_received_prefix w r :
  ∃ k,
    received (copyAndChecksum w r).1.1
    = received w ++ take k (bytesRead r (copyAndChecksum w r).1.2).
Proof.
  destruct (copyAndChecksum w r) as [[w' r'] res] eqn:Hcall.
  by apply (copyAndChecksum_received _ _ _ _ _ Hcall).
Qed.



Lemma writeAll_calls w w' bufs :
  writeAll w bufs = Some w' →
  calls w' = calls w ++ filter (λ buf, buf ≠ []) bufs.
Proof.
  revert w. induction bufs as [|buf bufs IH]; intros w Hw; cbn in Hw.
  - simplify_eq. by rewrite app_nil_r.
  - empty_or_not buf Hlen.
    + rewrite filter_cons_False by (by intros ?). by apply IH.
    + assert (Hbuf : buf ≠ []) by (by intros ->).
      rewrite filter_cons_True by done.
      unfold Write, Dest_Writer in Hw.
      destruct (respond w (calls w) buf) as [n [e|]]; [done|].
      destruct (n =? Z.of_nat (length buf)); [|done].
      apply IH in Hw. rewrite Hw. cbn [calls]. by rewrite <- app_assoc.
Qed.

(** X12: a call that succeeds has made one [Write] for each read that
    returned bytes, with exactly those bytes, in order, and none for a read
    that returned no bytes: what is read is neither split nor merged. *)
Theorem copyAndChecksum_writes w w' r r' sum :
  copyAndChecksum w r = (w', r', (sum, None)) →
  calls w' = calls w ++ filter (λ buf, buf ≠ []) (take (length r - length r') r).*1.
Proof.
  intros (taken & -> & Hw & _ & _)%copyAndChecksum_ok.
  rewrite length_app.
  replace (length taken + length r' - length r')%nat with (length taken) by lia.
  rewrite take_app_length. by apply writeAll_calls.
Qed.

Lemma copyBuffer_no_error r w d n0 :
  accepting w →
  Forall (λ c, c.2 = None ∨ c.2 = Some EOF) r →
  (io.copyBuffer (io.MultiWriter w d) r n0).2.2 = None.
Proof.
  revert w d n0. induction r as [|[buf er] r IH]; intros w d n0 Hacc Hr; [done|].
  apply Forall_cons in Hr as [Her Hr]. cbn in Her.
  rewrite copyBuffer_cons. cbn zeta.
  assert (Hafter : ∀ w1 d1 n1, accepting w1 →
            (match er with
             | Some e' => (io.MultiWriter w1 d1, r,
                           (n1, if decide (e' = EOF) then None else Some e'))
             | None => io.copyBuffer (io.MultiWriter w1 d1) r n1
             end).2.2 = None).
  { intros w1 d1 n1 Hacc1. destruct Her as [-> | ->]; [by apply IH|].
    by case_decide. }
  destruct (length buf =? 0)%nat; [by apply Hafter|].
  rewrite (Write_accepting w buf Hacc), Z.eqb_refl. by apply Hafter.
Qed.

(** X13: on a destination that takes every write, a source none of whose
    reads reports an error other than [io.EOF] is copied in full: the call
    returns the hex digest of the content of the source and a [nil] error,
    and the destination has received the content. *)
Theorem copyAndChecksum_succeeds w r :
  accepting w →
  Forall (λ c, c.2 = None ∨ c.2 = Some EOF) r →
  (copyAndChecksum w r).2
  = (hex.EncodeToString (sha512.Sum512 (pushpackage.contentOf r)), None) ∧
  received (copyAndChecksum w r).1.1 = received w ++ pushpackage.contentOf r.
Proof.
  intros Hacc Hr.
  destruct (copyAndChecksum w r) as [[w' r'] [sum err]] eqn:Hcall.
  assert (err = None) as ->.
  { pose proof (copyBuffer_no_error r w sha512.New 0 Hacc Hr) as Hnone.
    unfold copyAndChecksum, io.Copy in Hcall.
    destruct (io.copyBuffer _ r 0) as [[mw r1] [n [e|]]]; [done|].
    by simplify_eq. }
  apply copyAndChecksum_ok in Hcall as (taken & -> & Hw & -> & Hc).
  cbn [fst snd]. rewrite Hc. split; [done|]. by apply writeAll_received.
Qed.

End CopyDest.

(** ** The digest and its hex form *)

Section DigestMore.

Import sha512.

(** The padding [checkSum] writes fills the last chunk: nothing is left in
    the buffer. *)
Lemma padded_buffer_empty d m :
  absorbed d m → x (write d (padlen (len d))) = [].
Proof.
  intros Hd.
  assert (Hlen : len d = u64 (Z.of_nat (length m))).
  { by destruct Hd as (? & ? & ? & ? & ? & ? & ?). }
  apply (write_absorbed _ _ (padlen (len d))) in Hd.
  rewrite Hlen, <- pad_padlen in Hd. rewrite Hlen.
  destruct Hd as (m1 & k & Hm & Hm1 & Hx & _ & _).
  destruct (pad_length m) as [q Hq].
  pose proof chunk_pos.
  apply length_zero_iff_nil.
  rewrite Hm, length_app, Hm1 in Hq.
  assert (k = q ∨ k < q ∨ q < k)%nat as [->|[?|?]] by lia; [lia|nia|nia].
Qed.

(** X14: the digest of a [hash.Hash] is that of everything written to it,
    however the writes cut it: after any sequence of writes to a new digest,
    [Sum(nil)] is [Sum512] of their concatenation. *)
Theorem digest_writes_Sum (bufs : list (list byte)) :
  Sum (fold_left write bufs New) [] = Sum512 (concat bufs).
Proof.
  apply Sum_nil. apply (writes_absorbed bufs New [] New_absorbed).
Qed.

(** X15: the invariants of the digest.  After any sequence of writes to a
    new digest fewer than [chunk] bytes are buffered and [len] is the number
    of bytes written, modulo [2^64]; and the write of the padding leaves the
    buffer empty, so that the check [d.nx != 0] of [checkSum] never fires. *)
Theorem digest_invariant (bufs : list (list byte)) :
  let d := fold_left write bufs New in
  (nx d < chunk)%nat ∧
  len d = u64 (Z.of_nat (length (concat bufs))) ∧
  nx (write d (padlen (len d))) = 0%nat.
Proof.
  cbn zeta.
  pose proof (writes_absorbed bufs New [] New_absorbed) as Hd. cbn [app] in Hd.
  split_and!.
  - by destruct Hd as (? & ? & ? & ? & ? & ? & ?).
  - by destruct Hd as (? & ? & ? & ? & ? & ? & ?).
  - unfold nx. by rewrite (padded_buffer_empty _ _ Hd).
Qed.

Lemma fromDigits_digit (v : byte) :
  hex.fromDigits (hex.digit (Z.shiftr (byteZ v) 4))
                 (hex.digit (Z.land (byteZ v) 0x0f)) = v.
Proof. destruct v; reflexivity. Qed.

(** X16: [hex.EncodeToString] loses nothing: byte sequences with the same
    hex string are equal, so two digests never share a string. *)
Theorem EncodeToString_inj (a b : list byte) :
  hex.EncodeToString a = hex.EncodeToString b → a = b.
Proof.
  revert b. induction a as [|v a IH]; intros [|v' b] Heq; try done.
  cbn [hex.EncodeToString] in Heq. injection Heq as Hhi Hlo Hrest.
  f_equal; [|by apply IH].
  by rewrite <- (fromDigits_digit v), <- (fromDigits_digit v'), Hhi, Hlo.
Qed.

End DigestMore.

(** ** The further properties at concrete inputs *)

(** The payload of the example program, [{"aps": {"alert": "Hello HTTP/2"}}]. *)
Lemma Map_body_only_witness :
  payload.Map payload.optionNumber
      (payload.mkAPS
         (payload.mkAlert "" "" [] "" "" [] "Hello HTTP/2" "" [] "" "" "") None
         (payload.mkSound "" 0 (S754_zero false)) "" "" false false "" [] ""
         (S754_zero false))
  = {[ "aps" := payload.VMap {[ "alert" := payload.VString "Hello HTTP/2" ]} ]}.
Proof.
  apply (Map_body_only payload.optionNumber "Hello HTTP/2" None).
  - discriminate.
  - reflexivity.
Defined.

(** The key ["badge"] of a payload with the badge 3. *)
Lemma Map_values_witness :
  payload.apsOf (payload.Map payload.optionNumber payload.titleBadgeSound)
    !! "badge" = Some (payload.VUint 3) ∧
  ("badge" = "badge" ∧ payload.VUint 3 = payload.VUint 3).
Proof.
  assert (Hv : payload.apsOf (payload.Map payload.optionNumber payload.titleBadgeSound)
                 !! "badge" = Some (payload.VUint 3)) by (vm_compute; reflexivity).
  split; [exact Hv|].
  destruct (Map_values payload.optionNumber payload.titleBadgeSound "badge"
              (payload.VUint 3) Hv)
    as [[Hk _]|[Hb|[[Hk _]|[[Hk _]|[[Hk _]|[[Hk _]|[[Hk _]|[[Hk _]|[[Hk _]|[[Hk _]|[Hk _]]]]]]]]]]];
    try discriminate Hk.
  exact Hb.
Defined.

(** A payload with a title and a badge is accepted and has a ["badge"]. *)
Lemma Validate_ok_Map_witness :
  payload.Validate None example.incomplete (Some payload.titleBadgeSound) = None ∧
  ("alert" ∈ dom (payload.apsOf (payload.Map payload.optionNumber payload.titleBadgeSound))
   ∨ "badge" ∈ dom (payload.apsOf (payload.Map payload.optionNumber payload.titleBadgeSound))).
Proof.
  split; [reflexivity|].
  apply (Validate_ok_Map payload.optionNumber None example.incomplete
           payload.titleBadgeSound).
  - reflexivity.
  - intros _. reflexivity.
Defined.

(** A payload with a title only is rejected. *)
Lemma Validate_incomplete_witness :
  payload.Validate None example.incomplete (Some payload.titleOnly)
    = Some example.incomplete ∧
  example.incomplete = example.incomplete ∧
  payload.Body (payload.Alert_ payload.titleOnly) = "" ∧
  ("badge" ∉ dom (payload.apsOf (payload.Map payload.optionNumber payload.titleOnly))) ∧
  ∀ s, payload.apsOf (payload.Map payload.optionNumber payload.titleOnly) !! "alert"
       ≠ Some (payload.VString s).
Proof.
  split; [reflexivity|].
  apply (Validate_incomplete payload.optionNumber None example.incomplete
           payload.titleOnly example.incomplete).
  - reflexivity.
  - reflexivity.
Defined.

Lemma copyAndChecksum_abc_once :
  copyAndChecksum Buffer example.abcOnce
  = (example.abcBufferOnce, [], (example.abcDigest, None)).
Proof. vm_compute. reflexivity. Qed.

(** [abc] read in two pieces and in one. *)
Lemma copyAndChecksum_same_content_witness :
  pushpackage.contentOf example.abcReader = pushpackage.contentOf example.abcOnce ∧
  example.abcDigest = example.abcDigest.
Proof.
  assert (Hsame : pushpackage.contentOf example.abcReader
                  = pushpackage.contentOf example.abcOnce) by reflexivity.
  split; [exact Hsame|].
  exact (copyAndChecksum_same_content _ _ _ _ _ _ _ _ _ _
           copyAndChecksum_abc copyAndChecksum_abc_once Hsame).
Defined.

Lemma copyAndChecksum_fips_witness :
  Z.of_nat (length (bytesRead example.abcReader [])) < 2 ^ 61 ∧
  example.abcDigest
  = hex.EncodeToString (sha512.fips (bytesRead example.abcReader [])).
Proof.
  assert (Hlen : Z.of_nat (length (bytesRead example.abcReader [])) < 2 ^ 61)
    by (vm_compute; reflexivity).
  split; [exact Hlen|].
  exact (copyAndChecksum_fips _ _ _ _ _ copyAndChecksum_abc Hlen).
Defined.

Lemma accepting_Buffer : accepting Buffer.
Proof. intros hist p. reflexivity. Qed.

(** A source whose second read fails, on a buffer. *)
Lemma copyAndChecksum_all_received_witness :
  accepting Buffer ∧
  received (copyAndChecksum Buffer example.abcReset).1.1
  = received Buffer
    ++ bytesRead example.abcReset (copyAndChecksum Buffer example.abcReset).1.2.
Proof.
  split; [exact accepting_Buffer|].
  exact (copyAndChecksum_all_received Buffer example.abcReset accepting_Buffer).
Defined.


Lemma copyAndChecksum_writes_witness :
  calls example.abcBuffer
  = calls Buffer
    ++ filter (λ buf, buf ≠ [])
              (take (length example.abcReader - length (@nil (list byte * option error)))
                    example.abcReader).*1.
Proof. exact (copyAndChecksum_writes _ _ _ _ _ copyAndChecksum_abc). Defined.

Lemma copyAndChecksum_succeeds_witness :
  (copyAndChecksum Buffer example.abcReader).2
  = (hex.EncodeToString (sha512.Sum512 (pushpackage.contentOf example.abcReader)), None) ∧
  received (copyAndChecksum Buffer example.abcReader).1.1
  = received Buffer ++ pushpackage.contentOf example.abcReader.
Proof.
  apply (copyAndChecksum_succeeds Buffer example.abcReader accepting_Buffer).
  constructor; [by left|]. constructor; [by right|]. constructor.
Defined.

Lemma EncodeToString_inj_witness :
  hex.EncodeToString (bytes_of_string "ab") = "6162" ∧
  bytes_of_string "ab" = [x61; x62].
Proof.
  assert (Hhex : hex.EncodeToString (bytes_of_string "ab")
                 = hex.EncodeToString [x61; x62]) by reflexivity.
  split; [reflexivity|].
  exact (EncodeToString_inj _ _ Hhex).
Defined.
